(** * cesium-terrain-builder: tile store, serializer gate, compressor loop,
      iteration coordinator and driver

    A shallow embedding of
    - [src/MBTiler.cpp] / [src/MBTiler.hpp]            (module [MBTiler]),
    - [CTBMBTilesTileSerializer.cpp]                   (module [Serializer]),
    - [CTBZOutputStream.cpp]                           (module [ZStream]),
    - [tools/ctb-tile.cpp]                             (modules [Coordinator], [Driver]),
    followed by the properties established about them.

    SQLite and zlib are outside the code: what [sqlite3_step] answers is an
    argument of the functions that call it, and the zlib entry points are
    the operations of a class [Zlib]. Threads meet only inside critical
    sections, so a concurrent run is the sequence of its critical sections. *)

From Stdlib Require Import ZArith Lia List Bool Strings.Byte Strings.Ascii.
From stdpp Require Import base gmap sets list strings pretty.

Local Open Scope Z_scope.

(** ** Machine integers

    C++ fixed-width integers are integers of [Z] together with the conversion
    that brings a value into the range of its type. *)

Module MachInt.

(** Conversion to an unsigned type of [w] bits. *)
Definition to_unsigned (w z : Z) : Z := z mod 2 ^ w.

(** Conversion to a signed (two's complement) type of [w] bits. *)
Definition to_signed (w z : Z) : Z := (z + 2 ^ (w - 1)) mod 2 ^ w - 2 ^ (w - 1).

Definition to_int (z : Z) : Z := to_signed 32 z.
Definition to_uint (z : Z) : Z := to_unsigned 32 z.
Definition to_uint64 (z : Z) : Z := to_unsigned 64 z.

Definition INT_MAX : Z := 2 ^ 31 - 1.

(** [a << k] on [uint64_t]. *)
Definition shl64 (a k : Z) : Z := to_uint64 (Z.shiftl a k).

End MachInt.

(** ** Control outcomes

    What a call of the modelled C++ code can do: return, throw, wait for ever
    on a mutex, fail an [assert], or (for the fuel-bounded model of a loop)
    still be looping when the fuel is spent. *)

Inductive exn : Type :=
| CTBException (what : string)          (* throw CTBException(...)        *)
| runtime_error (what : string)         (* throw std::runtime_error(...)  *)
| runtime_error_ptr (what : string).    (* throw new runtime_error(...)   *)

Inductive outcome (S : Type) : Type :=
| Returns (s : S)
| Throws (e : exn) (s : S)
| Blocks
| AssertFails (s : S)
| OutOfFuel.

Arguments Returns {S} s.
Arguments Throws {S} e s.
Arguments Blocks {S}.
Arguments AssertFails {S} s.
Arguments OutOfFuel {S}.

(** Sequencing: the continuation runs only after a normal return. *)
Definition andThen {S T : Type} (o : outcome S) (k : S -> outcome T)
                   (lift : S -> T) : outcome T :=
  match o with
  | Returns s => k s
  | Throws e s => Throws e (lift s)
  | Blocks => Blocks
  | AssertFails s => AssertFails (lift s)
  | OutOfFuel => OutOfFuel
  end.

Definition blocks {S : Type} (o : outcome S) : bool :=
  match o with Blocks => true | _ => false end.

(** The outcome seen through a function of the state. *)
Definition outcome_map {S T : Type} (f : S -> T) (o : outcome S) : outcome T :=
  match o with
  | Returns s => Returns (f s)
  | Throws e s => Throws e (f s)
  | Blocks => Blocks
  | AssertFails s => AssertFails (f s)
  | OutOfFuel => OutOfFuel
  end.

(** ** MBTiler: the tile store *)

Module MBTiler.
Import MachInt.

(** One row of the table [tiles (zoom_level, tile_column, tile_row, tile_data)].
    SQLite integer columns hold 64-bit values. *)
Record TileRecord : Type := mkTileRecord {
  zoom_level : Z;
  tile_column : Z;
  tile_row : Z;
  tile_data : list byte
}.

(** The database file: its two tables. *)
Record Database : Type := mkDatabase {
  tiles_table : list TileRecord;
  metadata_table : list (string * string)
}.

(** The object: [db], the in-memory set [tiles] and the mutex [mtx]
    ([true] when locked). *)
Record store : Type := mkMBTiler {
  db : Database;
  tiles : gset Z;
  mtx : bool
}.

(** The packed identifier [(z << 58) | (x << 29) | y] over [uint64_t]
    operands, as written in both [loadTiles] and [testTileExists]. *)
Definition pack (z x y : Z) : Z :=
  Z.lor (Z.lor (shl64 z 58) (shl64 x 29)) y.

(** Result codes of [sqlite3_step]; a row of the SELECT carries its three
    integer columns. *)
Inductive step_rc : Type :=
| SQLITE_ROW (z x y : Z)
| SQLITE_DONE
| SQLITE_FAIL (rc : Z).

(** [sqlite3_column_int]: the column value truncated to [int]. *)
Definition sqlite3_column_int (v : Z) : Z := to_int v.

(** The loop of [loadTiles] over the successive results of [sqlite3_step].
    A statement that has run out of rows answers [SQLITE_DONE]. *)
Fixpoint loadTiles_loop (steps : list step_rc) (tiles : gset Z) : outcome (gset Z) :=
  match steps with
  | [] => Returns tiles
  | SQLITE_ROW c0 c1 c2 :: rest =>
      let z := to_uint64 (sqlite3_column_int c0) in
      let x := to_uint64 (sqlite3_column_int c1) in
      let y := to_uint64 (sqlite3_column_int c2) in
      loadTiles_loop rest ({[ pack z x y ]} ∪ tiles)
  | SQLITE_DONE :: _ => Returns tiles
  | SQLITE_FAIL _ :: _ =>
      Throws (runtime_error "Could not fetch rendered rows from database") tiles
  end.

(** What stepping [SELECT zoom_level, tile_column, tile_row FROM tiles]
    yields: the rows in table order, cut short by a failure after
    [fault] rows when the environment has one. *)
Definition select_tiles (tbl : list TileRecord) (fault : option nat) : list step_rc :=
  let rows := map (fun r => SQLITE_ROW (zoom_level r) (tile_column r) (tile_row r)) tbl in
  match fault with
  | None => rows ++ [SQLITE_DONE]
  | Some n => take n rows ++ [SQLITE_FAIL 1]
  end.

(** What the environment decides about the SQLite calls of the constructor. *)
Record open_env : Type := mkOpenEnv {
  open_ok : bool;                 (* sqlite3_open returned SQLITE_OK *)
  exec_ok : bool;                 (* every exec(...) returned SQLITE_OK *)
  select_fault : option nat       (* a failing step of the SELECT, if any *)
}.

Definition no_fault : open_env :=
  {| open_ok := true; exec_ok := true; select_fault := None |}.

Definition loadTiles (env : open_env) (s : store) : outcome store :=
  andThen (loadTiles_loop (select_tiles (tiles_table (db s)) (select_fault env)) (tiles s))
          (fun ts => Returns {| db := db s; tiles := ts; mtx := mtx s |})
          (fun ts => {| db := db s; tiles := ts; mtx := mtx s |}).

(** [MBTiler::MBTiler(filepath)] on the database found at [filepath]
    (both tables empty when the file is new: [CREATE TABLE IF NOT EXISTS]). *)
Definition open (file : Database) (env : open_env) : outcome store :=
  let s0 := {| db := file; tiles := ∅; mtx := false |} in
  if negb (open_ok env) then
    Throws (runtime_error_ptr "Could not open the SQLite database") s0
  else if negb (exec_ok env) then
    Throws (runtime_error_ptr "SQLite Error: ") s0
  else loadTiles env s0.

(** [MBTiler::~MBTiler()]: the rows written by the executed statements stay
    in the file. *)
Definition close (s : store) : Database := db s.

(** [MBTiler::insertBlob(blob, size, zoom, tileColumn, tileRow)]; the pair
    [blob, size] is the byte list [blob], and [rc] is what [sqlite3_step]
    answers for the INSERT. A call runs from [mtx.lock()] to its exit in one
    piece, so the mutex is found locked at entry only when an earlier call
    left it so; nothing unlocks it then, and [mtx.lock()] does not return.
    The text of [sqlite3_errmsg] appended to the message is left out. *)
Definition insertBlob (rc : step_rc) (blob : list byte) (zoom tileColumn tileRow : Z)
                      (s : store) : outcome store :=
  if mtx s then Blocks                                   (* mtx.lock() *)
  else
    let locked := {| db := db s; tiles := tiles s; mtx := true |} in
    match rc with
    | SQLITE_DONE =>
        let row := {| zoom_level := to_int zoom; tile_column := to_int tileColumn;
                      tile_row := to_int tileRow; tile_data := blob |} in
        let db' := {| tiles_table := tiles_table (db s) ++ [row];
                      metadata_table := metadata_table (db s) |} in
        Returns {| db := db'; tiles := tiles s; mtx := false |}   (* mtx.unlock() *)
    | _ => Throws (runtime_error_ptr "SQLite Error: ") locked
    end.

(** [MBTiler::testTileExists(zoom, tileColumn, tileRow)], arguments of type
    [unsigned int]. *)
Definition testTileExists (s : store) (zoom tileColumn tileRow : Z) : bool :=
  let tile := pack (to_uint64 (to_uint zoom)) (to_uint64 (to_uint tileColumn))
                   (to_uint64 (to_uint tileRow)) in
  bool_decide (tile ∈ tiles s).

(** [int numTiles() { return tiles.size(); }] *)
Definition numTiles (s : store) : Z := to_int (Z.of_nat (size (tiles s))).

(** The documented field widths: 6 bits of zoom, 29 of column, 29 of row. *)
Definition in_bounds (z x y : Z) : Prop :=
  0 <= z < 2 ^ 6 /\ 0 <= x < 2 ^ 29 /\ 0 <= y < 2 ^ 29.

(** The identifier [loadTiles] computes for a row. *)
Definition row_id (r : TileRecord) : Z :=
  pack (to_uint64 (sqlite3_column_int (zoom_level r)))
       (to_uint64 (sqlite3_column_int (tile_column r)))
       (to_uint64 (sqlite3_column_int (tile_row r))).

(** A run of [insertBlob] calls, one per coordinate, each of which SQLite
    executes; it stops at the first call that does not return. *)
Fixpoint insert_all (blob : list byte) (cs : list (Z * Z * Z)) (s : store) : outcome store :=
  match cs with
  | [] => Returns s
  | (z, x, y) :: rest =>
      andThen (insertBlob SQLITE_DONE blob z x y s) (insert_all blob rest) (fun s' => s')
  end.

Definition empty_file : Database := {| tiles_table := []; metadata_table := [] |}.

(** The five coordinates (zoom, x, y) of the two-worker build scenario. *)
Definition scenario_tiles : list (Z * Z * Z) :=
  [(0, 0, 0); (0, 1, 0); (0, 0, 1); (0, 1, 1); (1, 0, 0)].

(** [MBTiler::setMetadata(name, value)]; [rc] is what [sqlite3_step] answers
    for the REPLACE. The table [metadata] carries the unique index on [name]
    that the constructor creates, so the REPLACE removes the row of that
    name, if there is one, and adds the new row. The function does not take
    the mutex. *)
Definition setMetadata (rc : step_rc) (name value : string) (s : store) : outcome store :=
  match rc with
  | SQLITE_DONE =>
      let kept := filter (fun row => row.1 <> name) (metadata_table (db s)) in
      Returns {| db := {| tiles_table := tiles_table (db s);
                          metadata_table := kept ++ [(name, value)] |};
                 tiles := tiles s; mtx := mtx s |}
  | _ => Throws (runtime_error_ptr "SQLite Error: ") s
  end.

(** A row as [insertBlob] writes it for a coordinate. *)
Definition row_of (blob : list byte) (c : Z * Z * Z) : TileRecord :=
  let '(z, x, y) := c in
  {| zoom_level := to_int z; tile_column := to_int x; tile_row := to_int y;
     tile_data := blob |}.

End MBTiler.

(** ** CTBZOutputStream: the in-memory gzip stream *)

Module ZStream.

(** Return codes and flush modes of zlib. *)
Inductive zret : Type :=
| Z_OK | Z_STREAM_END | Z_STREAM_ERROR | Z_MEM_ERROR | Z_BUF_ERROR | Z_VERSION_ERROR.

Inductive zflush : Type := Z_NO_FLUSH | Z_FINISH.

(** What one call of [deflate(&stream, flush)] leaves behind: its return
    code, the new internal state, the input not yet consumed
    ([next_in], [avail_in]) and the bytes written at [next_out]. *)
Record deflate_result (zstate : Type) : Type := mkDeflateResult {
  ret : zret;
  state' : zstate;
  rest_in : list byte;
  produced : list byte
}.
Arguments ret {zstate} _.
Arguments state' {zstate} _.
Arguments rest_in {zstate} _.
Arguments produced {zstate} _.

(** The zlib entry points the class calls. [deflate st input avail_out flush]
    is a call with [avail_in = length input] bytes at [next_in] and room for
    [avail_out] bytes at [next_out]. *)
Class Zlib : Type := mkZlib {
  zstate : Type;
  deflateInit2 : zret * zstate;
  deflate : zstate -> list byte -> Z -> zflush -> deflate_result zstate;
  deflateReset : zstate -> zstate
}.

Definition is_stream_error (r : zret) : bool :=
  match r with Z_STREAM_ERROR => true | _ => false end.

Definition TMPSIZE : Z := 4 * 1024.

Section Stream.
Context `{Zlib}.

(** The object: the zlib stream (internal state and pending input) and
    the buffer of compressed data. *)
Record zstream : Type := mkStream {
  stream_state : zstate;
  next_in : list byte;
  buffer : list byte
}.

Definition avail_in (s : zstream) : Z := Z.of_nat (length (next_in s)).

(** The [do ... while (stream.avail_out == 0)] loop of [deflateRound]. *)
Fixpoint drain (fuel : nat) (flush : zflush) (s : zstream) : outcome zstream :=
  match fuel with
  | O => OutOfFuel
  | S fuel' =>
      let r := deflate (stream_state s) (next_in s) TMPSIZE flush in
      let temp := produced r in
      let avail_out := TMPSIZE - Z.of_nat (length temp) in
      if is_stream_error (ret r) then
        Throws (CTBException "Compression failed")
               {| stream_state := state' r; next_in := rest_in r; buffer := buffer s |}
      else
        let have := TMPSIZE - avail_out in
        let s' := {| stream_state := state' r; next_in := rest_in r;
                     buffer := buffer s ++ take (Z.to_nat have) temp |} in
        if avail_out =? 0 then drain fuel' flush s' else Returns s'
  end.

(** [deflateRound(data, size, flush)]; the pair [data, size] is the byte
    list [data]. *)
Definition deflateRound (fuel : nat) (data : list byte) (flush : zflush)
                        (s : zstream) : outcome zstream :=
  let s0 := {| stream_state := stream_state s; next_in := data; buffer := buffer s |} in
  andThen (drain fuel flush s0)
          (fun s' => if avail_in s' =? 0 then Returns s' else AssertFails s')
          (fun s' => s').

(** [write(ptr, size)]: its effect on the object, which is that of its one
    statement. The function has no [return] statement; how the call itself
    ends is [write_call] below. *)
Definition write (fuel : nat) (ptr : list byte) (s : zstream) : outcome zstream :=
  deflateRound fuel ptr Z_NO_FLUSH s.

Definition finish (fuel : nat) (s : zstream) : outcome zstream :=
  deflateRound fuel [] Z_FINISH s.

Definition reset (s : zstream) : zstream :=
  {| stream_state := deflateReset (stream_state s); next_in := next_in s; buffer := [] |}.

(** The constructor, through [init]. *)
Definition create : outcome zstream :=
  let '(rc, st) := deflateInit2 in
  let s := {| stream_state := st; next_in := []; buffer := [] |} in
  match rc with
  | Z_OK => Returns s
  | _ => Throws (CTBException "Could not initialize zlib") s
  end.

Definition data (s : zstream) : list byte := buffer s.
Definition size (s : zstream) : nat := length (buffer s).

(** A sequence of [write] calls, as made by a tile's [writeFile]. *)
Fixpoint writes (fuel : nat) (chunks : list (list byte)) (s : zstream) : outcome zstream :=
  match chunks with
  | [] => Returns s
  | c :: rest => andThen (write fuel c s) (writes fuel rest) (fun s' => s')
  end.

End Stream.

(** What a round may end in: a return with all input consumed, or the
    exception raised for [Z_STREAM_ERROR]. *)
Definition round_ok `{Zlib} (o : outcome zstream) : Prop :=
  match o with
  | Returns s' => avail_in s' = 0
  | Throws e _ => e = CTBException "Compression failed"
  | _ => False
  end.

(** While the loop is still running the same holds, short of the fuel. *)
Definition round_sound `{Zlib} (o : outcome zstream) : Prop :=
  match o with
  | OutOfFuel => True
  | _ => round_ok o
  end.

(** The bytes [b] are still at the front of the buffer, however the call
    ended. *)
Definition keeps_prefix `{Zlib} (b : list byte) (o : outcome zstream) : Prop :=
  match o with
  | Returns s' | Throws _ s' | AssertFails s' => b `prefix_of` buffer s'
  | Blocks | OutOfFuel => True
  end.

(** The part of zlib's documented behaviour the class relies on, for calls
    that offer [TMPSIZE > 0] bytes of output space. *)
Class ZlibContract (E : Zlib) : Prop := mkZlibContract {
  (** input is consumed from the front *)
  deflate_consumes : forall st inp fl,
    exists consumed, inp = consumed ++ rest_in (deflate st inp TMPSIZE fl);
  (** "deflate stops when the input buffer becomes empty or the output
      buffer becomes full" *)
  deflate_stops : forall st inp fl,
    let r := deflate st inp TMPSIZE fl in
    ret r = Z_OK \/ ret r = Z_STREAM_END ->
    rest_in r = [] \/ Z.of_nat (length (produced r)) = TMPSIZE;
  (** [Z_BUF_ERROR], no progress possible: without [Z_FINISH] this is
      answered only to a call that brings no input *)
  deflate_buf_error : forall st inp,
    ret (deflate st inp TMPSIZE Z_NO_FLUSH) = Z_BUF_ERROR -> inp = [];
  (** [deflate] returns no other code *)
  deflate_codes : forall st inp fl,
    let r := deflate st inp TMPSIZE fl in
    ret r = Z_OK \/ ret r = Z_STREAM_END \/ ret r = Z_BUF_ERROR \/ ret r = Z_STREAM_ERROR;
  (** the output still owed for the input at hand is finite: some bound
      is lowered by every full chunk *)
  deflate_progress : exists owed : zstate -> list byte -> zflush -> nat,
    forall st inp fl,
    let r := deflate st inp TMPSIZE fl in
    ret r <> Z_STREAM_ERROR ->
    Z.of_nat (length (produced r)) = TMPSIZE ->
    (owed (state' r) (rest_in r) fl < owed st inp fl)%nat
}.

(** How the body of a function that is declared to return a value ends: at
    a [return] statement, or at its closing brace, which C++ leaves
    undefined. *)
Inductive returned (V : Type) : Type :=
| ReturnValue (v : V)
| FlowsOffEnd.
Arguments ReturnValue {V} v.
Arguments FlowsOffEnd {V}.

(** [CTBZOutputStream::write(ptr, size)] as a call. Its body is the call of
    [deflateRound]; when that returns, the end of the function, declared
    [uint32_t], is reached and there is no [return] statement. *)
Definition write_call `{Zlib} (fuel : nat) (ptr : list byte) (s : zstream)
  : outcome (zstream * returned Z) :=
  outcome_map (fun s' => (s', FlowsOffEnd)) (write fuel ptr s).

(** What the statements of one cycle of use do to the object: [reset()],
    for each chunk the body of [write], then [finish()]. *)
Definition cycle `{Zlib} (fuel : nat) (chunks : list (list byte)) (s : zstream)
  : outcome zstream :=
  andThen (writes fuel chunks (reset s)) (finish fuel) (fun s' => s').

Definition finishes (fl : zflush) : bool :=
  match fl with Z_FINISH => true | Z_NO_FLUSH => false end.

(** The history of an engine state since the last [deflateReset]: whether
    [Z_FINISH] has been asked for, the input consumed and the output
    produced so far, by calls that were not answered [Z_STREAM_ERROR]. *)
Inductive session `{Zlib} : zstate -> bool -> list byte -> list byte -> Prop :=
| session_reset (st : zstate) : session (deflateReset st) false [] []
| session_call (st : zstate) (fin : bool) (cin cout inp consumed : list byte)
               (fl : zflush) :
    session st fin cin cout ->
    ret (deflate st inp TMPSIZE fl) <> Z_STREAM_ERROR ->
    inp = consumed ++ rest_in (deflate st inp TMPSIZE fl) ->
    session (state' (deflate st inp TMPSIZE fl)) (fin || finishes fl)
            (cin ++ consumed) (cout ++ produced (deflate st inp TMPSIZE fl)).

(** zlib as a gzip codec (the stream is set up with [16 + MAX_WBITS]), for
    calls that offer [TMPSIZE] bytes of output space; [gunzip] is the
    decompression of one complete gzip member. *)
Class GzipContract (E : Zlib) (gunzip : list byte -> option (list byte)) : Prop :=
  mkGzipContract {
  (** [Z_STREAM_ERROR] is for a stream used out of order: a stream not yet
      finished takes any call, a finished one takes [Z_FINISH] without input *)
  deflate_accepts : forall st fin cin cout inp fl,
    session st fin cin cout ->
    fin = false \/ (fl = Z_FINISH /\ inp = []) ->
    ret (deflate st inp TMPSIZE fl) <> Z_STREAM_ERROR;
  (** with [Z_FINISH], [Z_OK] says that the output space ran out *)
  finish_ok_full : forall st inp,
    ret (deflate st inp TMPSIZE Z_FINISH) = Z_OK ->
    Z.of_nat (length (produced (deflate st inp TMPSIZE Z_FINISH))) = TMPSIZE;
  (** a call with [Z_FINISH] and room for output is not answered
      [Z_BUF_ERROR] when it brings no input *)
  finish_no_buf_error : forall st,
    ret (deflate st [] TMPSIZE Z_FINISH) <> Z_BUF_ERROR;
  (** [Z_STREAM_END]: the output since the reset is one complete gzip member
      that holds the input since the reset *)
  gzip_member : forall st fin cin cout inp,
    session st fin cin cout ->
    ret (deflate st inp TMPSIZE Z_FINISH) = Z_STREAM_END ->
    gunzip (cout ++ produced (deflate st inp TMPSIZE Z_FINISH)) = Some (cin ++ inp)
}.

End ZStream.

(** A stand-in for zlib that stores its input unchanged: it queues what it
    is given and hands the queue out as output space allows. It serves as a
    concrete engine on which the contract above can be checked. *)

Module StoredEngine.
Import ZStream.

Record state : Type := mkState { pending : list byte; finished : bool }.

Definition is_finish (fl : zflush) : bool :=
  match fl with Z_FINISH => true | Z_NO_FLUSH => false end.

Definition is_nil (l : list byte) : bool :=
  match l with [] => true | _ => false end.

Definition stored_deflate (st : state) (inp : list byte) (avail_out : Z)
                          (fl : zflush) : deflate_result state :=
  if finished st && negb (is_finish fl) then
    {| ret := Z_STREAM_ERROR; state' := st; rest_in := inp; produced := [] |}
  else if finished st && negb (is_nil inp) then
    {| ret := Z_BUF_ERROR; state' := st; rest_in := inp; produced := [] |}
  else
    let queue := pending st ++ inp in
    let n := Z.to_nat avail_out in
    {| ret := if is_finish fl && is_nil (drop n queue) then Z_STREAM_END else Z_OK;
       state' := {| pending := drop n queue; finished := is_finish fl |};
       rest_in := [];
       produced := take n queue |}.

#[export] Instance stored : Zlib :=
  {| zstate := state;
     deflateInit2 := (Z_OK, {| pending := []; finished := false |});
     deflate := stored_deflate;
     deflateReset := fun _ => {| pending := []; finished := false |} |}.

(** What the stand-in engine writes is what it was given. *)
Definition stored_gunzip (member : list byte) : option (list byte) := Some member.

End StoredEngine.

(** ** CTBMBTilesTileSerializer *)

Module Serializer.

Record TileCoordinate : Type := mkTileCoordinate { zoom : Z; x : Z; y : Z }.

(** A mesh tile as the serializer sees it: its coordinate and the
    [write] calls its [writeFile] makes on the stream it is given. *)
Record MeshTile : Type := mkMeshTile {
  coordinate : TileCoordinate;
  writeFile : bool -> list (list byte)
}.

Section Serializer.
Context `{ZStream.Zlib}.

(** The object: the store behind [mbtiler] (a valid pointer), the flag
    [resume] and the member [gzipStream]. *)
Record serializer : Type := mkSerializer {
  mbtiler : MBTiler.store;
  resume : bool;
  gzipStream : ZStream.zstream
}.

Definition mustSerializeCoordinate (s : serializer) (coordinate : TileCoordinate) : bool :=
  if negb (resume s) then true
  else negb (MBTiler.testTileExists (mbtiler s)
               (zoom coordinate) (x coordinate) (y coordinate)).

Definition with_stream (s : serializer) (gz : ZStream.zstream) : serializer :=
  {| mbtiler := mbtiler s; resume := resume s; gzipStream := gz |}.

Definition with_store (s : serializer) (m : MBTiler.store) : serializer :=
  {| mbtiler := m; resume := resume s; gzipStream := gzipStream s |}.

(** The first three statements of [serializeTile]: generate the gzipped
    content of the tile. *)
Definition compress (fuel : nat) (tile : MeshTile) (writeVertexNormals : bool)
                    (s : serializer) : outcome serializer :=
  let gz0 := ZStream.reset (gzipStream s) in
  andThen
    (andThen (ZStream.writes fuel (writeFile tile writeVertexNormals) gz0)
             (ZStream.finish fuel) (fun gz => gz))
    (fun gz => Returns (with_stream s gz))
    (with_stream s).

(** [serializeTile(tile, writeVertexNormals)]; [rc] is what [sqlite3_step]
    answers inside [insertBlob]. [assert(mbtiler)] holds, the pointer being
    valid. The value returned, when it returns, is [true]. *)
Definition serializeTile (fuel : nat) (rc : MBTiler.step_rc) (tile : MeshTile)
                         (writeVertexNormals : bool) (s : serializer) : outcome serializer :=
  andThen (compress fuel tile writeVertexNormals s)
          (fun s1 =>
             let c := coordinate tile in
             andThen (MBTiler.insertBlob rc (ZStream.data (gzipStream s1))
                                         (zoom c) (x c) (y c) (mbtiler s1))
                     (fun m => Returns (with_store s1 m))
                     (with_store s1))
          (fun s1 => s1).

(** Modelled from the spec: what a worker does with one coordinate it has
    claimed; the build loop that drives the serializer is not among the
    sources. Section 2 names the steps: the worker "asks the (external)
    content generator for the tile payload at that coordinate, asks the
    TileSerializer whether serialization is required (resume mode), and if
    so streams the payload through the StreamingCompressor into the
    TileStore". Their order is the one section 4.2 gives, "callers rely on
    testTileExists being checked before generation": the gate is asked
    first, it being "the sole gate that lets a restarted build skip
    previously completed tiles" (section 4.3), and only when it answers
    [true] is the content generator [generate] asked for the tile, which is
    then handed to [serializeTile]. The first component lists the
    coordinates for which the generator was asked; [rc] is what
    [sqlite3_step] answers for the insert of a coordinate. *)
Definition buildTile (fuel : nat) (rc : TileCoordinate -> MBTiler.step_rc)
                     (generate : TileCoordinate -> MeshTile)
                     (writeVertexNormals : bool) (coord : TileCoordinate)
                     (s : serializer) : list TileCoordinate * outcome serializer :=
  if mustSerializeCoordinate s coord
  then ([coord], serializeTile fuel (rc coord) (generate coord) writeVertexNormals s)
  else ([], Returns s).

(** Modelled from the spec: the worker's loop over the coordinates it claims,
    in the order in which it claims them; it is not among the sources
    either. "Any fatal error from compression or storage aborts that
    worker's loop" (section 6): the loop goes on to the next coordinate only
    after a normal return. *)
Fixpoint buildTiles (fuel : nat) (rc : TileCoordinate -> MBTiler.step_rc)
                    (generate : TileCoordinate -> MeshTile)
                    (writeVertexNormals : bool) (coords : list TileCoordinate)
                    (s : serializer) : list TileCoordinate * outcome serializer :=
  match coords with
  | [] => ([], Returns s)
  | coord :: rest =>
      let '(asked, o) := buildTile fuel rc generate writeVertexNormals coord s in
      match o with
      | Returns s' =>
          let '(asked', o') := buildTiles fuel rc generate writeVertexNormals rest s' in
          (asked ++ asked', o')
      | _ => (asked, o)
      end
  end.

End Serializer.

End Serializer.

(** ** ctb-tile: the iteration coordinator *)

Module Coordinator.
Import MachInt.

Section Iterator.
(** The template parameter [T] of [incrementIterator] with the three
    operations the tool uses on it. *)
Context {T Tile : Type}.
Variable incr : T -> T.              (* ++iter *)
Variable exhausted : T -> bool.      (* iter.exhausted() *)
Variable deref : T -> Tile.          (* *iter *)

(** [while (currentIndex < globalIteratorIndex) { ++iter; ++currentIndex; }]
    run for at most [n] iterations. *)
Fixpoint catch_up (n : nat) (iter : T) (currentIndex globalIteratorIndex : Z) : T * Z :=
  match n with
  | O => (iter, currentIndex)
  | S n' =>
      if currentIndex <? globalIteratorIndex
      then catch_up n' (incr iter) (currentIndex + 1) globalIteratorIndex
      else (iter, currentIndex)
  end.

(** The body of [incrementIterator], executed under its mutex, as a
    function of the static [globalIteratorIndex]: the advanced iterator,
    the value returned and the new [globalIteratorIndex]. The loop makes
    [globalIteratorIndex - currentIndex] iterations when that is positive
    and none otherwise. [None]: [++globalIteratorIndex] overflows [int]. *)
Definition incrementIterator (iter : T) (currentIndex globalIteratorIndex : Z)
  : option (T * Z * Z) :=
  let '(iter', currentIndex') :=
    catch_up (Z.to_nat (globalIteratorIndex - currentIndex))
             iter currentIndex globalIteratorIndex in
  if globalIteratorIndex <? INT_MAX
  then Some (iter', currentIndex', globalIteratorIndex + 1)
  else None.

(** Where a thread running [buildTerrain] / [buildGDAL] stands between two
    calls of [incrementIterator]. *)
Inductive pc : Type := AtStart | InBody | Exited.

Record worker : Type := mkWorker { iter : T; currentIndex : Z; at_pc : pc }.

(** A tile taken up by a thread: the loop body entered with this index
    and this tile. *)
Record claim : Type := mkClaim { who : nat; index : Z; tile : Tile }.

Record system : Type := mkSystem {
  globalIteratorIndex : Z;
  workers : list worker;
  claims : list claim          (* in the order of the critical sections *)
}.

(** Thread [i] runs up to and including its next call of
    [incrementIterator] and the loop test that follows it. *)
Definition step (i : nat) (s : system) : option system :=
  match workers s !! i with
  | None => Some s
  | Some w =>
      match at_pc w with
      | Exited => Some s
      | _ =>
          match incrementIterator (iter w) (currentIndex w) (globalIteratorIndex s) with
          | None => None
          | Some (it, c, g) =>
              let stop := exhausted it in
              let w' := {| iter := it; currentIndex := c;
                           at_pc := if stop then Exited else InBody |} in
              Some {| globalIteratorIndex := g;
                      workers := <[i := w']> (workers s);
                      claims := if stop then claims s
                                else claims s ++ [ {| who := i; index := c;
                                                      tile := deref it |} ] |}
          end
      end
  end.

(** An interleaving: the order in which threads enter the mutex. *)
Fixpoint run (sched : list nat) (s : system) : option system :=
  match sched with
  | [] => Some s
  | i :: rest => match step i s with Some s' => run rest s' | None => None end
  end.

(** [W] threads, each with its own iterator constructed at [start] and
    [currentIndex] passed as 0 to its first call. *)
Definition init (start : T) (W : nat) : system :=
  {| globalIteratorIndex := 0;
     workers := replicate W {| iter := start; currentIndex := 0; at_pc := AtStart |};
     claims := [] |}.

Definition is_exited (w : worker) : bool :=
  match at_pc w with Exited => true | _ => false end.

Definition all_exited (s : system) : bool := forallb is_exited (workers s).

(** The iterator after [k] increments and the enumeration it stands for. *)
Definition advance (k : nat) (start : T) : T := Nat.iter k incr start.

Definition enumeration (start : T) (L : nat) : list Tile :=
  map (fun k => deref (advance k start)) (seq 0 L).

(** [start] enumerates exactly [L] tiles: the iterator reports exhaustion
    from the [L]-th increment on. *)
Definition enumerates (start : T) (L : nat) : Prop :=
  forall k : nat, exhausted (advance k start) = bool_decide (L <= k)%nat.

(** How many threads have left their loop. *)
Fixpoint exited_count (ws : list worker) : nat :=
  match ws with
  | [] => 0
  | w :: rest => ((if is_exited w then 1 else 0) + exited_count rest)%nat
  end.

(** How many tiles have been taken up once [globalIteratorIndex] is [g]. *)
Definition taken (L : nat) (g : Z) : nat := Nat.min (Z.to_nat g) L.

(** What holds of a thread between two of its calls: its iterator stands at
    its [currentIndex], which is an index already handed out; in the loop
    body it holds a tile of the enumeration, and it has left the loop on an
    index past the end. *)
Definition worker_ok (start : T) (L : nat) (g : Z) (w : worker) : Prop :=
  0 <= currentIndex w <= g /\
  iter w = advance (Z.to_nat (currentIndex w)) start /\
  match at_pc w with
  | AtStart => currentIndex w = 0
  | InBody => currentIndex w < Z.of_nat L /\ currentIndex w < g
  | Exited => Z.of_nat L <= currentIndex w /\ currentIndex w < g
  end.

(** What holds of the whole system between two critical sections. *)
Record invariant (start : T) (L W : nat) (s : system) : Prop := mkInvariant {
  inv_global : 0 <= globalIteratorIndex s;
  inv_width : length (workers s) = W;
  inv_workers : Forall (worker_ok start L (globalIteratorIndex s)) (workers s);
  inv_claims :
    map (fun c => (index c, tile c)) (claims s)
    = map (fun k => (Z.of_nat k, deref (advance k start)))
          (seq 0 (taken L (globalIteratorIndex s)));
  inv_who : Forall (fun c => (who c < W)%nat) (claims s);
  inv_count :
    globalIteratorIndex s
    = Z.of_nat (taken L (globalIteratorIndex s)) + Z.of_nat (exited_count (workers s))
}.

(** What holds between two critical sections for as long as no thread has
    left its loop and the counter has stayed within [int]. *)
Definition all_looping (start : T) (L W : nat) (s : system) : Prop :=
  0 <= globalIteratorIndex s <= INT_MAX /\
  length (workers s) = W /\
  Forall (fun w => worker_ok start L (globalIteratorIndex s) w /\ is_exited w = false)
         (workers s).

(** What is left to do: tiles not yet taken up and threads still looping. *)
Definition remaining (L W : nat) (s : system) : nat :=
  ((L - taken L (globalIteratorIndex s)) + (W - exited_count (workers s)))%nat.

(** No two threads that have made a call stand on the same index. *)
Definition distinct_indices (s : system) : Prop :=
  forall i j w w',
    workers s !! i = Some w -> workers s !! j = Some w' ->
    at_pc w <> AtStart -> at_pc w' <> AtStart ->
    currentIndex w = currentIndex w' -> i = j.

End Iterator.

End Coordinator.

(** A concrete iterator, for running the coordinator on the scenario: a
    position in the list of the five tiles, which [++] moves forward until
    the end is reached. *)

Module ScanIterator.

Definition tiles : list (Z * Z * Z) := MBTiler.scenario_tiles.

Definition incr (pos : nat) : nat :=
  if (pos <? length tiles)%nat then S pos else pos.

Definition exhausted (pos : nat) : bool := (length tiles <=? pos)%nat.

Definition deref (pos : nat) : Z * Z * Z := nth pos tiles (0, 0, 0).

End ScanIterator.

(** A concrete iterator over the tiles [0 .. n-1]: a position, which [++]
    moves forward until it reaches [n]. *)

Module CountIterator.

Definition incr (n pos : Z) : Z := if pos <? n then pos + 1 else pos.

Definition exhausted (n pos : Z) : bool := n <=? pos.

Definition deref (pos : Z) : Z := pos.

End CountIterator.

(** ** ctb-tile: the driver *)

Module Driver.

(** How [buildTerrain] / [buildGDAL] ends in a thread. *)
Inductive build_result : Type :=
| BuildCompletes
| BuildThrows (e : exn).

(** What the future of a [packaged_task] holds. *)
Inductive task_result : Type :=
| Value (retval : Z)
| Exception (e : exn).

(** [runTiler]: [opened] tells whether [GDALOpen] gave a dataset. *)
Definition runTiler (opened : bool) (build : build_result) : task_result :=
  if negb opened then Value 1
  else
    match build with
    | BuildCompletes => Value 0
    | BuildThrows (CTBException _) => Value 0       (* caught; execution goes on to [return 0] *)
    | BuildThrows e => Exception e                  (* not caught here *)
    end.

(** How the process ends. *)
Inductive exit : Type :=
| ExitCode (code : Z)
| Terminate (e : exn).         (* an exception leaves [main] *)

(** The last loop of [main] over the futures. *)
Fixpoint get_all (tasks : list task_result) : exit :=
  match tasks with
  | [] => ExitCode 0
  | Value retval :: rest => if retval =? 0 then get_all rest else ExitCode retval
  | Exception e :: _ => Terminate e
  end.

(** [main] from the launch of the threads on; one entry per thread. *)
Definition main (threads : list (bool * build_result)) : exit :=
  get_all (map (fun '(opened, build) => runTiler opened build) threads).

(** A string without the character [-]. *)
Fixpoint dash_free (s : string) : bool :=
  match s with
  | EmptyString => true
  | String c rest => negb (Ascii.eqb c "-"%char) && dash_free rest
  end.

(** A thread that ends well as far as [runTiler] tells: the dataset opened,
    and the build completed or threw an exception that [runTiler] catches. *)
Definition returns_zero (thread : bool * build_result) : Prop :=
  thread.1 = true /\
  (thread.2 = BuildCompletes \/ exists what, thread.2 = BuildThrows (CTBException what)).

(** [getTileFilename(coord, dirname, extension)], with [extension] possibly
    [NULL]. The stream prints the three unsigned fields in decimal. *)
Definition getTileFilename (coord : Serializer.TileCoordinate) (dirname : string)
                           (extension : option string) : string :=
  let filename :=
    dirname +:+ (pretty (Z.to_N (Serializer.zoom coord)) +:+ "-"
                 +:+ pretty (Z.to_N (Serializer.x coord)) +:+ "-"
                 +:+ pretty (Z.to_N (Serializer.y coord))) in
  match extension with
  | Some ext => (filename +:+ ".") +:+ ext
  | None => filename
  end.

End Driver.

(** * Properties *)

(** ** Integer conversions and the packed identifier *)

Module MachIntFacts.
Import MachInt.

Lemma to_uint64_small z : 0 <= z < 2 ^ 64 -> to_uint64 z = z.
Proof. intros Hz. unfold to_uint64, to_unsigned. now apply Z.mod_small. Qed.

Lemma to_uint_small z : 0 <= z < 2 ^ 32 -> to_uint z = z.
Proof. intros Hz. unfold to_uint, to_unsigned. now apply Z.mod_small. Qed.

Lemma to_int_small z : - 2 ^ 31 <= z < 2 ^ 31 -> to_int z = z.
Proof.
  intros Hz. unfold to_int, to_signed.
  change (2 ^ (32 - 1)) with (2 ^ 31). rewrite Z.mod_small; lia.
Qed.

(** A value below [2^n] has no bit in common with a multiple of [2^n]. *)
Lemma land_shifted_low a b n :
  0 <= n -> 0 <= b < 2 ^ n -> Z.land (a * 2 ^ n) b = 0.
Proof.
  intros Hn Hb. apply Z.bits_inj'. intros i Hi.
  rewrite Z.land_spec, Z.bits_0.
  destruct (Z.lt_ge_cases i n) as [Hlt | Hge].
  - rewrite Z.mul_pow2_bits_low by lia. reflexivity.
  - rewrite <- (Z.mod_small b (2 ^ n)) by lia.
    rewrite Z.mod_pow2_bits_high by lia. apply andb_false_r.
Qed.

Lemma lor_shifted_low a b n :
  0 <= n -> 0 <= b < 2 ^ n -> Z.lor (a * 2 ^ n) b = a * 2 ^ n + b.
Proof.
  intros Hn Hb. pose proof (Z.add_lor_land (a * 2 ^ n) b) as E.
  rewrite land_shifted_low in E by assumption. lia.
Qed.

Lemma shl64_small a k :
  0 <= k -> 0 <= a -> a * 2 ^ k < 2 ^ 64 -> shl64 a k = a * 2 ^ k.
Proof.
  intros Hk Ha Hlt. unfold shl64. rewrite Z.shiftl_mul_pow2 by assumption.
  apply to_uint64_small. split; [| assumption].
  apply Z.mul_nonneg_nonneg; [assumption |]. apply Z.pow_nonneg. lia.
Qed.

End MachIntFacts.

Module MBTilerFacts.
Import MachInt MachIntFacts MBTiler.

(** Within the field widths the three fields do not overlap. *)
Lemma pack_sum z x y :
  in_bounds z x y -> pack z x y = z * 2 ^ 58 + x * 2 ^ 29 + y.
Proof.
  intros (Hz & Hx & Hy). unfold pack.
  rewrite (shl64_small z 58), (shl64_small x 29) by lia.
  rewrite (lor_shifted_low z (x * 2 ^ 29) 58) by lia.
  replace (z * 2 ^ 58 + x * 2 ^ 29) with ((z * 2 ^ 29 + x) * 2 ^ 29) by lia.
  rewrite lor_shifted_low by lia. lia.
Qed.

Example pack_1_2_3 : pack 1 2 3 = 2 ^ 58 + 2 ^ 30 + 3.
Proof. reflexivity. Qed.

(** Outside the bounds identifiers collide: a row of [2^29] is taken for
    column 1. *)
Example pack_collision : pack 0 0 (2 ^ 29) = pack 0 1 0.
Proof. reflexivity. Qed.

(** The three fields can be read back from the sum. *)
Lemma pack_fields z x y z' x' y' :
  in_bounds z x y -> in_bounds z' x' y' ->
  pack z x y = pack z' x' y' ->
  z = z' /\ x = x' /\ y = y'.
Proof.
  intros Hb Hb' E. rewrite !pack_sum in E by assumption.
  destruct Hb as (Hz & Hx & Hy), Hb' as (Hz' & Hx' & Hy').
  assert (z = z') by lia. subst z'.
  assert (x = x') by lia. subst x'.
  split; [reflexivity |]. split; [reflexivity | lia].
Qed.

(** C7. Within the 6/29/29-bit bounds the packed identifier
    [(zoom << 58) | (x << 29) | y] determines the coordinate: two triples
    with the same identifier are the same triple. *)
Theorem pack_injective z x y z' x' y' :
  in_bounds z x y -> in_bounds z' x' y' ->
  pack z x y = pack z' x' y' ->
  (z, x, y) = (z', x', y').
Proof.
  intros Hb Hb' E. destruct (pack_fields _ _ _ _ _ _ Hb Hb' E) as (-> & -> & ->).
  reflexivity.
Qed.

Lemma pack_injective_witness :
  in_bounds 1 2 3 /\ pack 1 2 3 = 2 ^ 58 + 2 ^ 30 + 3 /\ (1, 2, 3) = (1, 2, 3).
Proof.
  assert (B : in_bounds 1 2 3) by (unfold in_bounds; lia).
  split; [exact B |]. split; [reflexivity |].
  apply (pack_injective 1 2 3 1 2 3 B B). reflexivity.
Defined.

(** *** Opening a store *)

Lemma loadTiles_loop_rows tbl (ts : gset Z) :
  loadTiles_loop (select_tiles tbl None) ts
  = Returns (list_to_set (map row_id tbl) ∪ ts).
Proof.
  revert ts. induction tbl as [| r tbl IH]; intros ts; simpl.
  - now rewrite union_empty_l_L.
  - unfold select_tiles in IH. rewrite IH. f_equal. unfold row_id.
    rewrite (comm_L (∪) {[ _ ]} (list_to_set _)). apply (assoc_L (∪)).
Qed.

Lemma open_no_fault file :
  open file no_fault
  = Returns {| db := file; tiles := list_to_set (map row_id (tiles_table file));
               mtx := false |}.
Proof.
  unfold open, loadTiles. cbn -[select_tiles loadTiles_loop].
  rewrite loadTiles_loop_rows. simpl. now rewrite union_empty_r_L.
Qed.

(** The identifier of the row that [insertBlob] writes for an in-bounds
    coordinate is the one [testTileExists] looks up. *)
Lemma row_id_in_bounds z x y blob :
  in_bounds z x y ->
  row_id {| zoom_level := to_int z; tile_column := to_int x;
            tile_row := to_int y; tile_data := blob |} = pack z x y.
Proof.
  intros (Hz & Hx & Hy). unfold row_id, sqlite3_column_int. simpl.
  rewrite !(to_int_small z), !(to_int_small x), !(to_int_small y) by lia.
  rewrite !to_uint64_small by lia. reflexivity.
Qed.

Lemma testTileExists_in_bounds s z x y :
  in_bounds z x y ->
  testTileExists s z x y = bool_decide (pack z x y ∈ tiles s).
Proof.
  intros (Hz & Hx & Hy). unfold testTileExists.
  rewrite !to_uint_small by lia. rewrite !to_uint64_small by lia. reflexivity.
Qed.

(** *** Inserting *)

Lemma insertBlob_returns rc blob z x y s s' :
  insertBlob rc blob z x y s = Returns s' ->
  rc = SQLITE_DONE /\ mtx s = false /\ mtx s' = false /\
  tiles s' = tiles s /\
  metadata_table (db s') = metadata_table (db s) /\
  tiles_table (db s')
  = tiles_table (db s) ++ [ {| zoom_level := to_int z; tile_column := to_int x;
                               tile_row := to_int y; tile_data := blob |} ].
Proof.
  unfold insertBlob. destruct (mtx s) eqn:Hm; [discriminate |].
  destruct rc; try discriminate. intros [= <-]. simpl. repeat split; reflexivity.
Qed.

Lemma insert_all_returns blob cs : forall s,
  mtx s = false ->
  exists s', insert_all blob cs s = Returns s' /\ mtx s' = false /\
    tiles s' = tiles s /\
    tiles_table (db s')
    = tiles_table (db s)
      ++ map (fun '(z, x, y) => {| zoom_level := to_int z; tile_column := to_int x;
                                   tile_row := to_int y; tile_data := blob |}) cs.
Proof.
  induction cs as [| [[z x] y] cs IH]; intros s Hm; simpl.
  - exists s. rewrite app_nil_r. auto.
  - unfold insertBlob. rewrite Hm. simpl.
    edestruct IH as (s' & E & Hm' & Ht & Hr); [| rewrite E; exists s'; simpl in *].
    + reflexivity.
    + repeat split; [assumption | assumption |].
      rewrite Hr. rewrite <- app_assoc. reflexivity.
Qed.

Lemma NoDup_pack (cs : list (Z * Z * Z)) :
  Forall (fun '(z, x, y) => in_bounds z x y) cs -> NoDup cs ->
  NoDup (map (fun '(z, x, y) => pack z x y) cs).
Proof.
  intros Hb Hnd. apply NoDup_fmap_2_strong; [| assumption].
  intros [[z x] y] [[z' x'] y'] Hin Hin' E.
  rewrite Forall_forall in Hb.
  destruct (pack_fields _ _ _ _ _ _ (Hb _ Hin) (Hb _ Hin') E) as (-> & -> & ->).
  reflexivity.
Qed.

Lemma row_ids_in_bounds blob (cs : list (Z * Z * Z)) :
  Forall (fun '(z, x, y) => in_bounds z x y) cs ->
  map row_id (map (fun '(z, x, y) =>
                     {| zoom_level := to_int z; tile_column := to_int x;
                        tile_row := to_int y; tile_data := blob |}) cs)
  = map (fun '(z, x, y) => pack z x y) cs.
Proof.
  induction 1 as [| [[z x] y] cs Hc _ IH]; simpl; [reflexivity |].
  rewrite IH. f_equal. now apply row_id_in_bounds.
Qed.

(** *** The claims about the store *)

(** C2, as the code has it. A call of [insertBlob] that returns has appended
    one row holding the coordinate and the blob to the table [tiles] and has
    left the in-memory set [tiles] as it was, so [numTiles()] is unchanged.
    Hence a build that inserts pairwise distinct in-bounds tiles into a store
    opened on a new file still has [numTiles() = 0] at the end of that run;
    [numTiles()] is the number of tiles inserted (5 for the five tiles of the
    scenario) only in a store opened on that file afterwards. *)
Theorem insertBlob_leaves_index :
  (forall rc blob z x y s s',
     insertBlob rc blob z x y s = Returns s' ->
     tiles s' = tiles s /\ numTiles s' = numTiles s /\
     tiles_table (db s')
     = tiles_table (db s) ++ [ {| zoom_level := to_int z; tile_column := to_int x;
                                  tile_row := to_int y; tile_data := blob |} ])
  /\
  (forall blob (cs : list (Z * Z * Z)),
     Forall (fun '(z, x, y) => in_bounds z x y) cs -> NoDup cs ->
     Z.of_nat (length cs) <= INT_MAX ->
     exists s0 sn sr,
       open empty_file no_fault = Returns s0 /\
       insert_all blob cs s0 = Returns sn /\
       numTiles sn = 0 /\
       length (tiles_table (db sn)) = length cs /\
       open (close sn) no_fault = Returns sr /\
       numTiles sr = Z.of_nat (length cs)).
Proof.
  split.
  - intros rc blob z x y s s' E.
    apply insertBlob_returns in E as (_ & _ & _ & Ht & _ & Hr).
    unfold numTiles. rewrite Ht. auto.
  - intros blob cs Hb Hnd Hlen.
    set (s0 := {| db := empty_file; tiles := ∅; mtx := false |}).
    destruct (insert_all_returns blob cs s0 eq_refl) as (sn & E & Hm & Ht & Hr).
    exists s0, sn,
      {| db := db sn;
         tiles := list_to_set (map (fun '(z, x, y) => pack z x y) cs);
         mtx := false |}.
    split; [apply open_no_fault |]. split; [exact E |].
    split; [| split; [| split]].
    + unfold numTiles. rewrite Ht. subst s0. cbn [tiles]. now rewrite size_empty.
    + rewrite Hr. subst s0. cbn [db tiles_table app empty_file]. apply length_map.
    + rewrite open_no_fault. unfold close. rewrite Hr. subst s0.
      cbn [db tiles_table app empty_file]. now rewrite row_ids_in_bounds.
    + unfold numTiles. cbn [tiles].
      rewrite size_list_to_set by now apply NoDup_pack.
      rewrite length_map. apply to_int_small. unfold INT_MAX in Hlen. lia.
Qed.

Lemma insertBlob_leaves_index_witness :
  exists s0 sn sr,
    open empty_file no_fault = Returns s0 /\
    insert_all [] scenario_tiles s0 = Returns sn /\
    numTiles sn = 0 /\
    length (tiles_table (db sn)) = 5%nat /\
    open (close sn) no_fault = Returns sr /\
    numTiles sr = 5.
Proof.
  apply (proj2 insertBlob_leaves_index [] scenario_tiles).
  - unfold scenario_tiles, in_bounds. repeat constructor; lia.
  - apply (bool_decide_unpack _). vm_compute. reflexivity.
  - unfold INT_MAX. simpl. lia.
Defined.

(** C2 as stated fails: on a store opened on a new file, the call for
    (0,0,0) returns and the identifier of (0,0,0) is not in the set; after
    the five inserts of the scenario [numTiles()] is 0, not 5. *)
Lemma insertBlob_grows_index_counterexample :
  exists s0 s1 s5,
    open empty_file no_fault = Returns s0 /\
    insertBlob SQLITE_DONE [] 0 0 0 s0 = Returns s1 /\
    (pack 0 0 0 ∉ tiles s1) /\
    insert_all [] scenario_tiles s0 = Returns s5 /\
    numTiles s5 <> 5.
Proof.
  set (s0 := {| db := empty_file; tiles := ∅; mtx := false |}).
  destruct (insert_all_returns [] scenario_tiles s0 eq_refl) as (s5 & E5 & _ & Ht5 & _).
  exists s0,
    {| db := {| tiles_table := [ {| zoom_level := 0; tile_column := 0; tile_row := 0;
                                    tile_data := [] |} ];
                metadata_table := [] |};
       tiles := ∅; mtx := false |},
    s5.
  split; [apply open_no_fault |]. split; [reflexivity |].
  split; [apply not_elem_of_empty |]. split; [exact E5 |].
  unfold numTiles. rewrite Ht5. subst s0. cbn [tiles]. rewrite size_empty. discriminate.
Qed.

(** Any answer of [sqlite3_step] other than [SQLITE_DONE] makes the call
    throw with the mutex locked. *)
Lemma insertBlob_throws rc blob z x y s :
  mtx s = false -> rc <> SQLITE_DONE ->
  insertBlob rc blob z x y s
  = Throws (runtime_error_ptr "SQLite Error: ")
           {| db := db s; tiles := tiles s; mtx := true |}.
Proof.
  intros Hm Hrc. unfold insertBlob. rewrite Hm. destruct rc; congruence.
Qed.

(** C9 fails on the path that throws. On a store whose mutex is free, a
    call of [insertBlob] whose [sqlite3_step] answers an error code throws
    with the mutex still locked, and every later call of [insertBlob] on
    that store waits on the mutex for ever. *)
Theorem insertBlob_throw_keeps_mutex :
  exists s0 s1,
    open empty_file no_fault = Returns s0 /\ mtx s0 = false /\
    insertBlob (SQLITE_FAIL 13) [] 0 0 0 s0
    = Throws (runtime_error_ptr "SQLite Error: ") s1 /\
    mtx s1 = true /\
    forall rc blob z x y, insertBlob rc blob z x y s1 = Blocks.
Proof.
  rewrite open_no_fault. do 2 eexists.
  split; [reflexivity |]. split; [reflexivity |].
  split; [reflexivity |]. split; [reflexivity |]. reflexivity.
Qed.

End MBTilerFacts.

(** ** The serializer: resume gate and failure order *)

Module SerializerFacts.
Import MachInt MachIntFacts MBTiler MBTilerFacts Serializer.

(** A store opened on a file that holds a row for an in-bounds coordinate
    answers [true] for it. *)
Lemma testTileExists_after_open file z x y blob :
  in_bounds z x y ->
  {| zoom_level := to_int z; tile_column := to_int x;
     tile_row := to_int y; tile_data := blob |} ∈ tiles_table file ->
  exists s, open file no_fault = Returns s /\ db s = file /\
            testTileExists s z x y = true.
Proof.
  intros Hb Hin. rewrite open_no_fault. eexists. split; [reflexivity |].
  split; [reflexivity |].
  rewrite testTileExists_in_bounds by assumption. cbn [tiles].
  apply bool_decide_eq_true. apply elem_of_list_to_set.
  rewrite <- (row_id_in_bounds z x y blob) by assumption.
  apply list_elem_of_fmap. eexists. split; [reflexivity | exact Hin].
Qed.

(** C6. [mustSerializeCoordinate] answers [true] when resume mode is off and
    the negation of [testTileExists] on the coordinate when it is on. In
    particular, in resume mode over a store opened on a file whose table
    holds the one tile (0,0,0), it answers [false] for (0,0,0) and [true]
    for (0,1,0). *)
Theorem mustSerializeCoordinate_gate `{ZStream.Zlib} :
  (forall (s : Serializer.serializer) c,
     mustSerializeCoordinate s c
     = if resume s then negb (testTileExists (mbtiler s) (zoom c) (x c) (y c))
       else true)
  /\
  (forall blob meta gz,
     exists store,
       open {| tiles_table := [ {| zoom_level := 0; tile_column := 0; tile_row := 0;
                                   tile_data := blob |} ];
               metadata_table := meta |} no_fault = Returns store /\
       mustSerializeCoordinate {| mbtiler := store; resume := true; gzipStream := gz |}
                               {| zoom := 0; x := 0; y := 0 |} = false /\
       mustSerializeCoordinate {| mbtiler := store; resume := true; gzipStream := gz |}
                               {| zoom := 0; x := 1; y := 0 |} = true).
Proof.
  split.
  - intros s c. unfold mustSerializeCoordinate. now destruct (resume s).
  - intros blob meta gz. rewrite open_no_fault. eexists. split; [reflexivity |].
    unfold mustSerializeCoordinate. cbn [resume negb mbtiler zoom x y].
    assert (B0 : in_bounds 0 0 0) by (unfold in_bounds; lia).
    assert (B1 : in_bounds 0 1 0) by (unfold in_bounds; lia).
    rewrite !testTileExists_in_bounds by assumption.
    cbn [tiles db tiles_table map].
    change (row_id _) with 0. change (pack 0 0 0) with 0.
    change (pack 0 1 0) with 536870912.
    split.
    + rewrite bool_decide_eq_true_2; [reflexivity |].
      apply elem_of_list_to_set, list_elem_of_here.
    + rewrite bool_decide_eq_false_2; [reflexivity |].
      rewrite elem_of_list_to_set, elem_of_cons, elem_of_nil. intros [E | []].
      discriminate E.
Qed.

End SerializerFacts.

(** ** The compressor: the drain loop of [deflateRound] *)

Module ZStreamFacts.
Import ZStream.

Section Contract.
Context {E : Zlib} {C : ZlibContract E}.

Lemma is_stream_error_false r :
  is_stream_error r = false -> r <> Z_STREAM_ERROR.
Proof. destruct r; simpl; congruence. Qed.

(** A call made with no input pending leaves none pending. *)
Lemma rest_in_nil st fl : rest_in (deflate st [] TMPSIZE fl) = [].
Proof.
  destruct (deflate_consumes st [] fl) as [consumed Hc].
  symmetry in Hc. now apply app_eq_nil in Hc.
Qed.

(** A call that does not fill the output chunk and does not fail has
    consumed its input, for the two ways the class calls [deflate]. *)
Lemma spare_output_no_input st inp fl :
  fl = Z_NO_FLUSH \/ inp = [] ->
  let r := deflate st inp TMPSIZE fl in
  is_stream_error (ret r) = false ->
  Z.of_nat (length (produced r)) <> TMPSIZE ->
  rest_in r = [].
Proof.
  intros Hcall r Herr Hspare.
  destruct (deflate_codes st inp fl) as [Hc | [Hc | [Hc | Hc]]]; fold r in Hc.
  - destruct (deflate_stops st inp fl (or_introl Hc)); [assumption | contradiction].
  - destruct (deflate_stops st inp fl (or_intror Hc)); [assumption | contradiction].
  - destruct Hcall as [-> | ->].
    + subst r. rewrite (deflate_buf_error st inp Hc). apply rest_in_nil.
    + apply rest_in_nil.
  - rewrite Hc in Herr. discriminate.
Qed.

Lemma drain_sound fuel fl : forall s,
  fl = Z_NO_FLUSH \/ next_in s = [] ->
  match drain fuel fl s with
  | Returns s' => next_in s' = []
  | Throws e _ => e = CTBException "Compression failed"
  | OutOfFuel => True
  | _ => False
  end.
Proof.
  induction fuel as [| fuel IH]; intros s Hcall; simpl; [exact I |].
  destruct (is_stream_error _) eqn:Herr; [reflexivity |].
  destruct (_ =? 0) eqn:Hfull.
  - apply IH. cbn [next_in]. destruct Hcall as [-> | Hnil]; [now left | right].
    rewrite Hnil. apply rest_in_nil.
  - cbn [next_in]. apply spare_output_no_input; [assumption .. |].
    apply Z.eqb_neq in Hfull. lia.
Qed.

Lemma drain_enough_fuel (owed : zstate -> list byte -> zflush -> nat) fl :
  (forall st inp,
     let r := deflate st inp TMPSIZE fl in
     ret r <> Z_STREAM_ERROR ->
     Z.of_nat (length (produced r)) = TMPSIZE ->
     (owed (state' r) (rest_in r) fl < owed st inp fl)%nat) ->
  forall fuel s,
    (owed (stream_state s) (next_in s) fl < fuel)%nat ->
    drain fuel fl s <> OutOfFuel.
Proof.
  intros Hprog. induction fuel as [| fuel IH]; intros s Hlt; [lia |].
  simpl. destruct (is_stream_error _) eqn:Herr; [discriminate |].
  destruct (_ =? 0) eqn:Hfull; [| discriminate].
  apply IH. cbn [stream_state next_in].
  apply Z.eqb_eq in Hfull.
  pose proof (Hprog (stream_state s) (next_in s)
                    (is_stream_error_false _ Herr)) as Hdec.
  lia.
Qed.

Lemma deflateRound_sound fuel data fl s :
  fl = Z_NO_FLUSH \/ data = [] ->
  round_sound (deflateRound fuel data fl s).
Proof.
  intros Hcall. unfold deflateRound.
  pose proof (drain_sound fuel fl
                {| stream_state := stream_state s; next_in := data;
                   buffer := buffer s |} Hcall) as Hd.
  destruct (drain _ _ _) as [s' | e s' | | s' |]; simpl; try exact Hd; try exact I.
  assert (Ha : avail_in s' = 0) by (unfold avail_in; now rewrite Hd).
  rewrite Ha. exact Ha.
Qed.

Lemma deflateRound_ok data fl s :
  fl = Z_NO_FLUSH \/ data = [] ->
  exists n, forall fuel, (n <= fuel)%nat -> round_ok (deflateRound fuel data fl s).
Proof.
  intros Hcall. destruct (@deflate_progress E C) as [owed Hprog].
  exists (S (owed (stream_state s) data fl)). intros fuel Hfuel.
  pose proof (deflateRound_sound fuel data fl s Hcall) as Hs.
  assert (Hne : drain fuel fl {| stream_state := stream_state s; next_in := data;
                                 buffer := buffer s |} <> OutOfFuel).
  { apply (drain_enough_fuel owed fl); [intros st inp; apply Hprog |].
    cbn [stream_state next_in]. lia. }
  unfold deflateRound in *.
  destruct (drain _ _ _) as [s' | e s' | | s' |]; simpl in *;
    try exact Hs; try contradiction.
  destruct (avail_in s' =? 0); exact Hs.
Qed.

End Contract.

(** The stand-in engine meets the contract. *)
Lemma stored_contract : ZlibContract StoredEngine.stored.
Proof.
  split.
  - intros st inp fl. cbn. unfold StoredEngine.stored_deflate.
    destruct (_ && negb (StoredEngine.is_finish fl)); [now exists [] |].
    destruct (_ && negb (StoredEngine.is_nil inp)); [now exists [] |].
    exists inp. cbn. now rewrite app_nil_r.
  - intros st inp fl r. subst r. cbn. unfold StoredEngine.stored_deflate.
    destruct (_ && negb (StoredEngine.is_finish fl)); cbn; [intros [|]; discriminate |].
    destruct (_ && negb (StoredEngine.is_nil inp)); cbn; [intros [|]; discriminate |].
    now left.
  - intros st inp. cbn. unfold StoredEngine.stored_deflate.
    destruct (StoredEngine.finished st); cbn; discriminate.
  - intros st inp fl r. subst r. cbn. unfold StoredEngine.stored_deflate.
    destruct (_ && negb (StoredEngine.is_finish fl)); cbn; [tauto |].
    destruct (_ && negb (StoredEngine.is_nil inp)); cbn; [tauto |].
    destruct (_ && _); tauto.
  - exists (fun st inp _ => length (StoredEngine.pending st ++ inp)).
    intros st inp fl r. subst r. cbn. unfold StoredEngine.stored_deflate.
    destruct (_ && negb (StoredEngine.is_finish fl)); cbn; [congruence |].
    destruct (_ && negb (StoredEngine.is_nil inp)); cbn;
      [intros _; unfold TMPSIZE; lia |].
    intros _. rewrite length_take, app_nil_r, length_drop.
    unfold TMPSIZE. lia.
Qed.

(** On the stand-in engine: a payload larger than one chunk goes through the
    loop twice in [write], and the buffer ends up holding all of it, whatever
    the stream and the buffer held before [reset]. *)
Example stored_cycle :
  let s0 := @mkStream StoredEngine.stored (StoredEngine.mkState [] true) []
                      [x2a; x2a]%byte in
  let payload := repeat x07%byte 5000 in
  match andThen (write 2 payload (reset s0)) (finish 3) (fun s => s) with
  | Returns s => buffer s = payload /\ avail_in s = 0
  | _ => False
  end.
Proof. vm_compute. split; reflexivity. Qed.

(** C10. Under zlib's contract for [deflate], a call of [write] or [finish]
    never fails the assertion [stream.avail_in == 0] of [deflateRound]:
    however long the drain loop has run, it has not failed it, and the loop
    does end, in a return with no input left or in the exception raised for
    [Z_STREAM_ERROR]. *)
Theorem deflateRound_assertion_holds (E : Zlib) (C : ZlibContract E)
                                     (ptr : list byte) (s : ZStream.zstream) :
  (forall fuel, round_sound (write fuel ptr s) /\ round_sound (finish fuel s)) /\
  (exists n, forall fuel, (n <= fuel)%nat ->
     round_ok (write fuel ptr s) /\ round_ok (finish fuel s)).
Proof.
  split.
  - intros fuel. split; apply deflateRound_sound; auto.
  - destruct (deflateRound_ok ptr Z_NO_FLUSH s (or_introl eq_refl)) as [n1 H1].
    destruct (deflateRound_ok [] Z_FINISH s (or_intror eq_refl)) as [n2 H2].
    exists (max n1 n2). intros fuel Hfuel. split; [apply H1 | apply H2]; lia.
Qed.

Lemma deflateRound_assertion_holds_witness :
  let s := @mkStream StoredEngine.stored (StoredEngine.mkState [] false) [] [] in
  let ptr := [x01; x02; x03]%byte in
  (forall fuel, round_sound (write fuel ptr s) /\ round_sound (finish fuel s)) /\
  (exists n, forall fuel, (n <= fuel)%nat ->
     round_ok (write fuel ptr s) /\ round_ok (finish fuel s)).
Proof.
  intros s ptr.
  exact (deflateRound_assertion_holds StoredEngine.stored stored_contract ptr s).
Defined.

End ZStreamFacts.

(** ** The compressor as a gzip codec: the round trip of a cycle *)

Module GzipFacts.
Import ZStream ZStreamFacts.

Section Codec.
Context {E : Zlib} {C : ZlibContract E}.

Lemma is_stream_error_true r : is_stream_error r = true -> r = Z_STREAM_ERROR.
Proof. destruct r; simpl; congruence. Qed.

(** [have] bytes of [temp] are all that [deflate] wrote there. *)
Lemma take_have (temp : list byte) :
  take (Z.to_nat (TMPSIZE - (TMPSIZE - Z.of_nat (length temp)))) temp = temp.
Proof. apply take_ge. lia. Qed.

(** Once the loop has ended, more fuel changes nothing. *)
Lemma drain_stable fuel fl : forall gz k,
  drain fuel fl gz <> OutOfFuel -> drain (fuel + k) fl gz = drain fuel fl gz.
Proof.
  induction fuel as [| fuel IH]; intros gz k; simpl; [congruence |].
  destruct (is_stream_error _); [reflexivity |].
  destruct (_ =? 0); [apply IH | reflexivity].
Qed.

Lemma deflateRound_stable data fl gz :
  fl = Z_NO_FLUSH \/ data = [] ->
  exists n,
    round_ok (deflateRound n data fl gz) /\
    forall fuel, (n <= fuel)%nat ->
      deflateRound fuel data fl gz = deflateRound n data fl gz.
Proof.
  intros Hcall. destruct (deflateRound_ok data fl gz Hcall) as [n Hn].
  exists n. split; [apply Hn; lia |]. intros fuel Hfuel.
  specialize (Hn n (Nat.le_refl n)). unfold deflateRound in *.
  replace fuel with (n + (fuel - n))%nat by lia.
  rewrite drain_stable; [reflexivity |].
  intros Hout. rewrite Hout in Hn. exact Hn.
Qed.

Context {gunzip : list byte -> option (list byte)} {G : GzipContract E gunzip}.

(** The loop of a [write] on a stream that has not been finished since its
    reset: it does not throw, and when it ends the engine has taken all the
    input and the buffer has grown by what the engine has put out. *)
Lemma drain_write_session fuel : forall s cin cout,
  session (stream_state s) false cin cout ->
  match drain fuel Z_NO_FLUSH s with
  | Returns s' =>
      exists out, buffer s' = buffer s ++ out /\
                  session (stream_state s') false (cin ++ next_in s) (cout ++ out)
  | OutOfFuel => True
  | _ => False
  end.
Proof.
  induction fuel as [| fuel IH]; intros s cin cout Hses; simpl; [exact I |].
  pose proof (deflate_accepts _ _ _ _ (next_in s) Z_NO_FLUSH Hses (or_introl eq_refl))
    as Hacc.
  destruct (deflate_consumes (stream_state s) (next_in s) Z_NO_FLUSH) as [consumed Hc].
  pose proof (session_call _ _ _ _ _ consumed Z_NO_FLUSH Hses Hacc Hc) as Hnext.
  cbn [orb finishes] in Hnext.
  destruct (is_stream_error _) eqn:Herr;
    [now apply is_stream_error_true in Herr |].
  rewrite take_have.
  destruct (_ =? 0) eqn:Hfull.
  - specialize (IH {| stream_state := state' (deflate (stream_state s) (next_in s)
                                                     TMPSIZE Z_NO_FLUSH);
                      next_in := rest_in (deflate (stream_state s) (next_in s)
                                                  TMPSIZE Z_NO_FLUSH);
                      buffer := buffer s ++ produced (deflate (stream_state s) (next_in s)
                                                              TMPSIZE Z_NO_FLUSH) |}
                   _ _ Hnext).
    destruct (drain fuel Z_NO_FLUSH _) as [s' | e s' | | s' |]; try exact IH.
    destruct IH as (out & Hbuf & Hs'). cbn [buffer next_in] in Hbuf, Hs'.
    exists (produced (deflate (stream_state s) (next_in s) TMPSIZE Z_NO_FLUSH) ++ out).
    split; [now rewrite Hbuf, <- app_assoc |].
    rewrite <- !app_assoc in Hs'. rewrite <- Hc in Hs'. exact Hs'.
  - eexists. cbn [buffer stream_state]. split; [reflexivity |].
    assert (Hrest : rest_in (deflate (stream_state s) (next_in s) TMPSIZE Z_NO_FLUSH) = []).
    { apply spare_output_no_input; [now left | exact Herr |].
      apply Z.eqb_neq in Hfull. lia. }
    rewrite Hrest, app_nil_r in Hc. subst consumed. exact Hnext.
Qed.

(** The loop of [finish]: it does not throw, and it ends only once the
    engine has answered [Z_STREAM_END]; what the engine has put out since
    the reset is then a gzip member of what it has taken since. *)
Lemma drain_finish_gzip fuel : forall s fin cin cout,
  session (stream_state s) fin cin cout -> next_in s = [] ->
  match drain fuel Z_FINISH s with
  | Returns s' =>
      exists out, buffer s' = buffer s ++ out /\ gunzip (cout ++ out) = Some cin
  | OutOfFuel => True
  | _ => False
  end.
Proof.
  induction fuel as [| fuel IH]; intros s fin cin cout Hses Hnil; simpl; [exact I |].
  rewrite Hnil.
  assert (Hacc : ret (deflate (stream_state s) [] TMPSIZE Z_FINISH) <> Z_STREAM_ERROR).
  { apply (deflate_accepts _ fin cin cout); [exact Hses |].
    destruct fin; [right | left]; auto. }
  assert (Hc : [] = [] ++ rest_in (deflate (stream_state s) [] TMPSIZE Z_FINISH))
    by now rewrite rest_in_nil.
  pose proof (session_call _ _ _ _ _ [] Z_FINISH Hses Hacc Hc) as Hnext.
  rewrite app_nil_r in Hnext.
  destruct (is_stream_error _) eqn:Herr;
    [now apply is_stream_error_true in Herr |].
  rewrite take_have.
  destruct (_ =? 0) eqn:Hfull.
  - specialize (IH {| stream_state := state' (deflate (stream_state s) [] TMPSIZE Z_FINISH);
                      next_in := rest_in (deflate (stream_state s) [] TMPSIZE Z_FINISH);
                      buffer := buffer s ++ produced (deflate (stream_state s) []
                                                              TMPSIZE Z_FINISH) |}
                   _ _ _ Hnext (rest_in_nil _ _)).
    destruct (drain fuel Z_FINISH _) as [s' | e s' | | s' |]; try exact IH.
    destruct IH as (out & Hbuf & Hgz). cbn [buffer] in Hbuf.
    exists (produced (deflate (stream_state s) [] TMPSIZE Z_FINISH) ++ out).
    split; [now rewrite Hbuf, <- app_assoc |]. now rewrite app_assoc.
  - eexists. cbn [buffer]. split; [reflexivity |].
    apply Z.eqb_neq in Hfull.
    destruct (deflate_codes (stream_state s) [] Z_FINISH) as [Hr | [Hr | [Hr | Hr]]].
    + apply finish_ok_full in Hr. lia.
    + rewrite <- (app_nil_r cin). now apply (gzip_member _ fin).
    + now apply finish_no_buf_error in Hr.
    + contradiction.
Qed.

(** A [write] on a stream not finished since its reset returns. *)
Lemma write_session ptr s cin cout :
  session (stream_state s) false cin cout ->
  exists s',
    (exists n, forall fuel, (n <= fuel)%nat -> write fuel ptr s = Returns s') /\
    exists out, buffer s' = buffer s ++ out /\
                session (stream_state s') false (cin ++ ptr) (cout ++ out).
Proof.
  intros Hses. unfold write.
  destruct (deflateRound_stable ptr Z_NO_FLUSH s (or_introl eq_refl)) as (n & Hok & Hst).
  pose proof (drain_write_session n {| stream_state := stream_state s; next_in := ptr;
                                       buffer := buffer s |} cin cout Hses) as Hd.
  unfold deflateRound in Hok, Hst |- *.
  destruct (drain n Z_NO_FLUSH _) as [s' | e s' | | s' |]; simpl in Hok, Hst;
    try contradiction.
  destruct (avail_in s' =? 0); [| contradiction].
  exists s'. split; [exists n; exact Hst | exact Hd].
Qed.

Lemma writes_session chunks : forall s cin cout,
  session (stream_state s) false cin cout ->
  exists s',
    (exists n, forall fuel, (n <= fuel)%nat -> writes fuel chunks s = Returns s') /\
    exists out, buffer s' = buffer s ++ out /\
                session (stream_state s') false (cin ++ concat chunks) (cout ++ out).
Proof.
  induction chunks as [| c chunks IH]; intros s cin cout Hses.
  - exists s. split; [exists 0%nat; reflexivity |].
    exists []. simpl. now rewrite !app_nil_r.
  - destruct (write_session c s cin cout Hses) as (s1 & [n1 H1] & out1 & Hb1 & Hs1).
    destruct (IH s1 _ _ Hs1) as (s2 & [n2 H2] & out2 & Hb2 & Hs2).
    exists s2. split.
    + exists (max n1 n2). intros fuel Hfuel. cbn [writes].
      rewrite H1 by lia. cbn [andThen]. apply H2. lia.
    + exists (out1 ++ out2). split; [now rewrite Hb2, Hb1, <- app_assoc |].
      cbn [concat]. now rewrite !app_assoc.
Qed.

Lemma finish_gzip s fin cin cout :
  session (stream_state s) fin cin cout ->
  exists s',
    (exists n, forall fuel, (n <= fuel)%nat -> finish fuel s = Returns s') /\
    exists out, buffer s' = buffer s ++ out /\ gunzip (cout ++ out) = Some cin.
Proof.
  intros Hses. unfold finish.
  destruct (deflateRound_stable [] Z_FINISH s (or_intror eq_refl)) as (n & Hok & Hst).
  pose proof (drain_finish_gzip n {| stream_state := stream_state s; next_in := [];
                                     buffer := buffer s |} fin cin cout Hses eq_refl) as Hd.
  unfold deflateRound in Hok, Hst |- *.
  destruct (drain n Z_FINISH _) as [s' | e s' | | s' |]; simpl in Hok, Hst;
    try contradiction.
  destruct (avail_in s' =? 0); [| contradiction].
  exists s'. split; [exists n; exact Hst | exact Hd].
Qed.

(** One cycle on any stream object, whatever it held before. *)
Lemma cycle_gzip chunks s :
  exists s',
    (exists n, forall fuel, (n <= fuel)%nat -> cycle fuel chunks s = Returns s') /\
    gunzip (data s') = Some (concat chunks).
Proof.
  destruct (writes_session chunks (reset s) [] [] (session_reset (stream_state s)))
    as (s1 & [n1 H1] & out1 & Hb1 & Hs1).
  destruct (finish_gzip s1 _ _ _ Hs1) as (s2 & [n2 H2] & out2 & Hb2 & Hgz).
  exists s2. split.
  - exists (max n1 n2). intros fuel Hfuel. unfold cycle.
    rewrite H1 by lia. cbn [andThen].
    rewrite H2 by lia. reflexivity.
  - unfold data. rewrite Hb2, Hb1. exact Hgz.
Qed.

End Codec.

(** The stand-in engine meets the codec contract, with the identity as
    decompression: between two calls its queue holds what it has taken and
    not yet put out. *)
Lemma stored_session st fin cin cout :
  @session StoredEngine.stored st fin cin cout ->
  StoredEngine.finished st = fin /\ cout ++ StoredEngine.pending st = cin.
Proof.
  induction 1 as [st | st fin cin cout inp consumed fl Hses [Hfin Hq] Hacc Hc].
  - split; reflexivity.
  - revert Hacc Hc. cbn. unfold StoredEngine.stored_deflate. rewrite Hfin.
    destruct fin, fl; cbn; try congruence.
    + destruct inp as [| b inp]; cbn.
      * intros _ Hc. rewrite app_nil_r in Hc. subst consumed.
        rewrite !app_nil_r, <- app_assoc, take_drop. auto.
      * intros _ Hc. apply (f_equal (@length byte)) in Hc.
        rewrite length_app in Hc. cbn in Hc.
        destruct consumed; [| cbn in Hc; lia].
        rewrite !app_nil_r. auto.
    + intros _ Hc. rewrite app_nil_r in Hc. subst consumed.
      rewrite <- app_assoc, take_drop, app_assoc, Hq. auto.
    + intros _ Hc. rewrite app_nil_r in Hc. subst consumed.
      rewrite <- app_assoc, take_drop, app_assoc, Hq. auto.
Qed.

Lemma stored_gzip_contract :
  GzipContract StoredEngine.stored StoredEngine.stored_gunzip.
Proof.
  split.
  - intros st fin cin cout inp fl Hses Hcall.
    apply stored_session in Hses as [Hfin _].
    cbn. unfold StoredEngine.stored_deflate. rewrite Hfin.
    destruct Hcall as [-> | [-> ->]]; cbn; [| destruct fin; cbn].
    all: try (destruct (_ && _); discriminate).
    all: destruct (StoredEngine.is_nil _); discriminate.
  - intros st inp. cbn. unfold StoredEngine.stored_deflate. cbn.
    rewrite andb_false_r. cbn.
    destruct (_ && _); cbn; [discriminate |].
    destruct (StoredEngine.is_nil (drop _ _)) eqn:Hd; [discriminate |]. intros _.
    rewrite length_take.
    destruct (drop _ _) as [| b rest] eqn:Hdrop; [discriminate |].
    apply (f_equal (@length byte)) in Hdrop. rewrite length_drop in Hdrop.
    cbn in Hdrop. unfold TMPSIZE in *. lia.
  - intros st. cbn. unfold StoredEngine.stored_deflate. cbn.
    rewrite !andb_false_r. cbn. destruct (StoredEngine.is_nil _); discriminate.
  - intros st fin cin cout inp Hses.
    apply stored_session in Hses as [Hfin Hq].
    cbn. unfold StoredEngine.stored_deflate, StoredEngine.stored_gunzip. cbn.
    rewrite andb_false_r. cbn.
    destruct (_ && _); cbn; [discriminate |].
    destruct (drop _ _) as [| b rest] eqn:Hdrop; cbn; [| discriminate]. intros _.
    f_equal. rewrite <- Hq, <- app_assoc. f_equal.
    rewrite <- (take_drop (Z.to_nat TMPSIZE) (StoredEngine.pending st ++ inp)) at 2.
    now rewrite Hdrop, app_nil_r.
Qed.

(** C4. A cycle [reset()], a [write()] per chunk of the payload, [finish()],
    relative to zlib's contract as a gzip codec. Every [write] of the cycle
    runs its body to the end and then flows off the end of the function,
    which is declared [uint32_t] and has no [return] statement: with a
    [write] in it the cycle has no defined result. What the statements of
    the cycle do to the object is the round trip: whatever the object held
    before, [data()] is in the end one gzip member whose decompression is
    the payload, also for the empty payload and without any [write]; and a
    further cycle on the same object gives a member of its own payload, in
    which nothing of the earlier one is left. *)
Theorem cycle_round_trip (E : Zlib) (C : ZlibContract E)
                         (gunzip : list byte -> option (list byte))
                         (G : GzipContract E gunzip)
                         (chunks1 chunks2 : list (list byte)) (s : zstream) :
  (forall ptr rest, chunks1 = ptr :: rest ->
     exists s' n, forall fuel, (n <= fuel)%nat ->
       write_call fuel ptr (reset s) = Returns (s', FlowsOffEnd)) /\
  (forall fuel ptr s0 s' v, write_call fuel ptr s0 <> Returns (s', ReturnValue v)) /\
  exists s1 s2 n, forall fuel, (n <= fuel)%nat ->
    cycle fuel chunks1 s = Returns s1 /\
    gunzip (data s1) = Some (concat chunks1) /\
    size s1 = length (data s1) /\
    cycle fuel chunks2 s1 = Returns s2 /\
    gunzip (data s2) = Some (concat chunks2) /\
    size s2 = length (data s2).
Proof.
  split; [| split].
  - intros ptr rest _.
    destruct (write_session ptr (reset s) [] [] (session_reset (stream_state s)))
      as (s' & [n Hn] & _).
    exists s', n. intros fuel Hfuel. unfold write_call. now rewrite Hn.
  - intros fuel ptr s0 s' v. unfold write_call.
    destruct (write fuel ptr s0); discriminate.
  - destruct (cycle_gzip chunks1 s) as (s1 & [n1 H1] & Hg1).
    destruct (cycle_gzip chunks2 s1) as (s2 & [n2 H2] & Hg2).
    exists s1, s2, (max n1 n2). intros fuel Hfuel.
    rewrite H1, H2 by lia. auto 10.
Qed.

Lemma cycle_round_trip_witness :
  let s := @mkStream StoredEngine.stored (StoredEngine.mkState [x2a]%byte true)
                     [x07]%byte [x2a; x2a]%byte in
  let chunks1 := [[x01; x02]; []; [x03]]%byte in
  let chunks2 := @nil (list byte) in
  (forall ptr rest, chunks1 = ptr :: rest ->
     exists s' n, forall fuel, (n <= fuel)%nat ->
       write_call fuel ptr (reset s) = Returns (s', FlowsOffEnd)) /\
  (forall fuel ptr (s0 : @zstream StoredEngine.stored) s' v,
     write_call fuel ptr s0 <> Returns (s', ReturnValue v)) /\
  exists s1 s2 n, forall fuel, (n <= fuel)%nat ->
    cycle fuel chunks1 s = Returns s1 /\
    StoredEngine.stored_gunzip (data s1) = Some (concat chunks1) /\
    size s1 = length (data s1) /\
    cycle fuel chunks2 s1 = Returns s2 /\
    StoredEngine.stored_gunzip (data s2) = Some (concat chunks2) /\
    size s2 = length (data s2).
Proof.
  intros s chunks1 chunks2.
  exact (cycle_round_trip StoredEngine.stored stored_contract
           StoredEngine.stored_gunzip stored_gzip_contract chunks1 chunks2 s).
Defined.

(** On the stand-in engine: the first [write] of a cycle over a one-byte
    payload leaves the byte with the engine and ends without a value. *)
Example write_call_stored :
  let s := @mkStream StoredEngine.stored (StoredEngine.mkState [] false) [] [] in
  write_call 1 [x01]%byte (reset s)
  = Returns (@mkStream StoredEngine.stored (StoredEngine.mkState [] false) []
                       [x01]%byte, FlowsOffEnd).
Proof. reflexivity. Qed.

End GzipFacts.

(** ** The serializer: compression comes before the store *)

Module SerializeTileFacts.
Import MachInt MBTiler Serializer.

Section Engine.
Context `{ZStream.Zlib}.

(** The compressor has no mutex to wait on. *)
Lemma drain_never_blocks fuel fl : forall gz,
  blocks (ZStream.drain fuel fl gz) = false.
Proof.
  induction fuel as [| fuel IH]; intros gz; simpl; [reflexivity |].
  destruct (ZStream.is_stream_error _); [reflexivity |].
  destruct (_ =? 0); [apply IH | reflexivity].
Qed.

Lemma deflateRound_never_blocks fuel data fl gz :
  blocks (ZStream.deflateRound fuel data fl gz) = false.
Proof.
  unfold ZStream.deflateRound.
  pose proof (drain_never_blocks fuel fl
                {| ZStream.stream_state := ZStream.stream_state gz;
                   ZStream.next_in := data;
                   ZStream.buffer := ZStream.buffer gz |}) as Hd.
  destruct (ZStream.drain _ _ _) as [gz' | e gz' | | gz' |]; simpl in *;
    try reflexivity; try discriminate.
  now destruct (ZStream.avail_in gz' =? 0).
Qed.

Lemma writes_never_blocks fuel chunks : forall gz,
  blocks (ZStream.writes fuel chunks gz) = false.
Proof.
  induction chunks as [| c chunks IH]; intros gz; simpl; [reflexivity |].
  unfold ZStream.write.
  pose proof (deflateRound_never_blocks fuel c ZStream.Z_NO_FLUSH gz) as Hd.
  destruct (ZStream.deflateRound _ _ _ _); simpl in *;
    try reflexivity; try discriminate. apply IH.
Qed.

(** However compression ends, the serializer it leaves differs from the
    one it started with in its stream only. *)
Lemma compress_outcome fuel tile wvn (s : Serializer.serializer) :
  match compress fuel tile wvn s with
  | Returns s1 | Throws _ s1 | AssertFails s1 =>
      mbtiler s1 = mbtiler s /\ resume s1 = resume s
  | Blocks => False
  | OutOfFuel => True
  end.
Proof.
  unfold compress.
  pose proof (writes_never_blocks fuel (writeFile tile wvn)
                (ZStream.reset (gzipStream s))) as Hw.
  destruct (ZStream.writes _ _ _) as [gz | e gz | | gz |]; simpl in *;
    try (split; reflexivity); try discriminate; try exact I.
  unfold ZStream.finish.
  pose proof (deflateRound_never_blocks fuel [] ZStream.Z_FINISH gz) as Hf.
  destruct (ZStream.deflateRound _ _ _ _); simpl in *;
    try (split; reflexivity); try discriminate; try exact I.
Qed.

(** On the stand-in engine and a store opened on a new file: the call returns
    and the table holds one row with the coordinate and the whole buffer. *)
Example serializeTile_stored :
  let tile := {| coordinate := {| zoom := 2; x := 3; y := 1 |};
                 writeFile := fun _ => [[x01; x02]; [x03]]%byte |} in
  let s0 := {| mbtiler := {| db := empty_file; tiles := ∅; mtx := false |};
               resume := false;
               gzipStream := @ZStream.mkStream StoredEngine.stored
                               (StoredEngine.mkState [] false) [] [] |} in
  match serializeTile 1 SQLITE_DONE tile false s0 with
  | Returns s => tiles_table (db (mbtiler s))
                 = [ {| zoom_level := 2; tile_column := 3; tile_row := 1;
                        tile_data := [x01; x02; x03]%byte |} ]
  | _ => False
  end.
Proof. reflexivity. Qed.


(** A call that returns has changed neither the flag nor the set. *)
Lemma serializeTile_returns fuel rc tile wvn (s s' : serializer) :
  serializeTile fuel rc tile wvn s = Returns s' ->
  resume s' = resume s /\ tiles (mbtiler s') = tiles (mbtiler s) /\
  mtx (mbtiler s') = false.
Proof.
  unfold serializeTile. pose proof (compress_outcome fuel tile wvn s) as Hc.
  destruct (compress fuel tile wvn s) as [s1 | e s1 | | s1 |]; simpl; try discriminate.
  destruct Hc as [Hm Hr].
  destruct (insertBlob _ _ _ _ _ _) as [m | e m | | m |] eqn:Hi; simpl; try discriminate.
  intros [= <-]. apply MBTilerFacts.insertBlob_returns in Hi as (_ & _ & Hfree & Ht & _).
  cbn [resume mbtiler with_store]. rewrite Ht, Hm, Hr. auto.
Qed.

End Engine.

End SerializeTileFacts.

(** ** Resume mode: what a later run does with a tile already stored *)

Module ResumeFacts.
Import MachInt MachIntFacts MBTiler MBTilerFacts Serializer SerializerFacts
       SerializeTileFacts.

Section Engine.
Context `{ZStream.Zlib}.

(** The gate looks at the flag and at the set only. *)
Lemma gate_same (s s' : serializer) c :
  resume s' = resume s -> tiles (mbtiler s') = tiles (mbtiler s) ->
  mustSerializeCoordinate s' c = mustSerializeCoordinate s c.
Proof.
  intros Hr Ht. unfold mustSerializeCoordinate, testTileExists. now rewrite Hr, Ht.
Qed.

(** Dealing with one coordinate does not change what the gate answers. *)
Lemma buildTile_keeps_gate fuel rc generate wvn coord (s s' : serializer) asked c :
  buildTile fuel rc generate wvn coord s = (asked, Returns s') ->
  mustSerializeCoordinate s' c = mustSerializeCoordinate s c.
Proof.
  unfold buildTile. destruct (mustSerializeCoordinate s coord).
  - intros [= _ Hs]. apply serializeTile_returns in Hs as (Hr & Ht & _).
    now apply gate_same.
  - now intros [= _ <-].
Qed.

(** A coordinate that the gate turns down when the loop starts is not
    generated in that loop, whatever the loop claims and however it ends. *)
Lemma buildTiles_skips fuel rc generate wvn c coords : forall s : serializer,
  mustSerializeCoordinate s c = false ->
  c ∉ (buildTiles fuel rc generate wvn coords s).1.
Proof.
  induction coords as [| coord coords IH]; intros s Hgate; cbn [buildTiles].
  - apply not_elem_of_nil.
  - destruct (buildTile fuel rc generate wvn coord s) as [asked o] eqn:Hb.
    assert (Hasked : c ∉ asked).
    { unfold buildTile in Hb. destruct (mustSerializeCoordinate s coord) eqn:Hc.
      - injection Hb as <- _. apply not_elem_of_cons. split; [| apply not_elem_of_nil].
        intros ->. congruence.
      - injection Hb as <- _. apply not_elem_of_nil. }
    destruct o as [s' | e s' | | s' |]; try exact Hasked.
    specialize (IH s'). rewrite (buildTile_keeps_gate _ _ _ _ _ _ _ _ _ Hb) in IH.
    specialize (IH Hgate).
    destruct (buildTiles fuel rc generate wvn coords s') as [asked' o'].
    cbn [fst] in *. apply not_elem_of_app. split; assumption.
Qed.

End Engine.

(** C3. For a coordinate within the 6/29/29-bit bounds: after [insertBlob]
    has returned for it, closing the store and constructing a new one on the
    same file succeeds (when SQLite reports no failure) and [testTileExists]
    answers [true] there for the coordinate. In a run in resume mode over
    the new store [mustSerializeCoordinate] answers [false] for it, so the
    worker that claims the coordinate neither generates the tile nor calls
    [serializeTile] and leaves the serializer as it is, and in no loop of
    that run, whatever coordinates it claims besides and however it ends,
    is the tile generated. *)
Theorem resume_after_reopen `{ZStream.Zlib} rc blob z x y (s s' : MBTiler.store) :
  in_bounds z x y ->
  insertBlob rc blob z x y s = Returns s' ->
  exists s'',
    open (close s') no_fault = Returns s'' /\
    testTileExists s'' z x y = true /\
    forall gz,
      mustSerializeCoordinate {| mbtiler := s''; resume := true; gzipStream := gz |}
                              {| zoom := z; x := x; y := y |} = false /\
      (forall fuel rc' generate wvn,
         buildTile fuel rc' generate wvn {| zoom := z; x := x; y := y |}
                   {| mbtiler := s''; resume := true; gzipStream := gz |}
         = ([], Returns {| mbtiler := s''; resume := true; gzipStream := gz |})) /\
      (forall fuel rc' generate wvn coords,
         {| zoom := z; x := x; y := y |}
         ∉ (buildTiles fuel rc' generate wvn coords
              {| mbtiler := s''; resume := true; gzipStream := gz |}).1).
Proof.
  intros Hb E. apply insertBlob_returns in E as (_ & _ & _ & _ & _ & Hr).
  destruct (testTileExists_after_open (close s') z x y blob Hb) as (s'' & Ho & _ & Ht).
  - unfold close. rewrite Hr. apply elem_of_app. right. apply list_elem_of_here.
  - exists s''. split; [exact Ho |]. split; [exact Ht |].
    intros gz.
    assert (Hgate : mustSerializeCoordinate
                      {| mbtiler := s''; resume := true; gzipStream := gz |}
                      {| zoom := z; x := x; y := y |} = false)
      by (unfold mustSerializeCoordinate; cbn; now rewrite Ht).
    split; [exact Hgate |]. split.
    + intros fuel rc' generate wvn. unfold buildTile. now rewrite Hgate.
    + intros fuel rc' generate wvn coords. now apply buildTiles_skips.
Qed.

Lemma resume_after_reopen_witness :
  in_bounds 3 5 7 /\
  exists s'',
    open (close {| db := {| tiles_table := [ {| zoom_level := to_int 3;
                                                tile_column := to_int 5;
                                                tile_row := to_int 7;
                                                tile_data := [x1f; x8b]%byte |} ];
                            metadata_table := [] |};
                   tiles := ∅; mtx := false |}) no_fault = Returns s'' /\
    testTileExists s'' 3 5 7 = true /\
    forall gz : @ZStream.zstream StoredEngine.stored,
      mustSerializeCoordinate {| mbtiler := s''; resume := true; gzipStream := gz |}
                              {| zoom := 3; x := 5; y := 7 |} = false /\
      (forall fuel rc' generate wvn,
         buildTile fuel rc' generate wvn {| zoom := 3; x := 5; y := 7 |}
                   {| mbtiler := s''; resume := true; gzipStream := gz |}
         = ([], Returns {| mbtiler := s''; resume := true; gzipStream := gz |})) /\
      (forall fuel rc' generate wvn coords,
         {| zoom := 3; x := 5; y := 7 |}
         ∉ (buildTiles fuel rc' generate wvn coords
              {| mbtiler := s''; resume := true; gzipStream := gz |}).1).
Proof.
  assert (B : in_bounds 3 5 7) by (unfold in_bounds; lia).
  split; [exact B |].
  apply (@resume_after_reopen StoredEngine.stored SQLITE_DONE [x1f; x8b]%byte 3 5 7
           {| db := empty_file; tiles := ∅; mtx := false |} _ B).
  reflexivity.
Defined.

(** A run in resume mode over a file that holds the tile (0,0,0), claiming
    (0,0,0), (0,1,0) and (0,0,0) again: only (0,1,0) is generated, and its
    row is the one the run adds. *)
Example resume_run :
  let file := {| tiles_table := [row_of [x1f; x8b]%byte (0, 0, 0)];
                 metadata_table := [] |} in
  let generate := fun c => {| coordinate := c;
                              writeFile := fun _ => [[x01; x02]; [x03]]%byte |} in
  match open file no_fault with
  | Returns store =>
      let s0 := {| mbtiler := store; resume := true;
                   gzipStream := @ZStream.mkStream StoredEngine.stored
                                   (StoredEngine.mkState [] false) [] [] |} in
      match buildTiles 1 (fun _ => SQLITE_DONE) generate false
                       [ {| zoom := 0; x := 0; y := 0 |};
                         {| zoom := 0; x := 1; y := 0 |};
                         {| zoom := 0; x := 0; y := 0 |} ] s0 with
      | (asked, Returns s1) =>
          asked = [ {| zoom := 0; x := 1; y := 0 |} ] /\
          tiles_table (db (mbtiler s1))
          = [ row_of [x1f; x8b]%byte (0, 0, 0); row_of [x01; x02; x03]%byte (0, 1, 0) ]
      | _ => False
      end
  | _ => False
  end.
Proof. vm_compute. split; reflexivity. Qed.

End ResumeFacts.

(** ** The driver: what becomes of a thread's failure *)

Module DriverFacts.
Import Driver.

Lemma get_all_zero n : get_all (replicate n (Value 0)) = ExitCode 0.
Proof. induction n as [| n IH]; simpl; [reflexivity | exact IH]. Qed.

(** An exception that [runTiler] does not catch leaves [main] through
    [task.get()]: the process ends without an exit code of its own. *)
Lemma uncaught_exception_terminates what :
  main [(true, BuildThrows (runtime_error_ptr what))]
  = Terminate (runtime_error_ptr what).
Proof. reflexivity. Qed.

(** C8 fails for the exceptions [runTiler] catches. A thread whose build
    throws a [CTBException] returns 0 from [runTiler], and a run in which
    every thread ends so exits with code 0; a thread that cannot open the
    dataset returns 1, and that value is what [main] returns. *)
Theorem caught_exception_exits_zero (what : string) (n : nat) :
  runTiler true (BuildThrows (CTBException what)) = Value 0 /\
  main (replicate n (true, BuildThrows (CTBException what))) = ExitCode 0 /\
  main [(true, BuildThrows (CTBException "Compression failed"))] = ExitCode 0 /\
  main [(false, BuildCompletes)] = ExitCode 1.
Proof.
  split; [reflexivity |]. split; [| split; reflexivity].
  unfold main. rewrite fmap_replicate. apply get_all_zero.
Qed.

End DriverFacts.

(** ** The iteration coordinator: every tile to exactly one thread *)

Module CoordinatorFacts.
Import MachInt Coordinator.

Section Protocol.
Context {T Tile : Type}.
Variable incr : T -> T.
Variable exhausted : T -> bool.
Variable deref : T -> Tile.
Variable start : T.
Variables L W : nat.

Local Abbreviation adv := (advance incr).
Local Abbreviation Inv := (invariant incr deref start L W).
Local Abbreviation ok := (worker_ok incr start L).

(** *** The catch-up loop *)

Lemma catch_up_reaches n : forall it c g,
  Z.of_nat n = g - c ->
  catch_up incr n it c g = (Nat.iter n incr it, g).
Proof.
  induction n as [| n IH]; intros it c g Hn; simpl.
  - f_equal. lia.
  - replace (c <? g) with true by (symmetry; apply Z.ltb_lt; lia).
    rewrite IH by lia. f_equal. symmetry. apply Nat.iter_succ_r.
Qed.

Lemma advance_add a b it : adv (a + b) it = Nat.iter a incr (adv b it).
Proof. unfold advance. apply Nat.iter_add. Qed.

(** A call by a thread whose iterator stands at its [currentIndex], not
    ahead of [globalIteratorIndex], leaves the iterator at the old
    [globalIteratorIndex] and returns that value. *)
Lemma incrementIterator_claims it c g :
  0 <= c <= g -> g < INT_MAX -> it = adv (Z.to_nat c) start ->
  incrementIterator incr it c g = Some (adv (Z.to_nat g) start, g, g + 1).
Proof.
  intros Hc Hg ->. unfold incrementIterator.
  rewrite catch_up_reaches by lia.
  rewrite <- advance_add.
  replace (Z.to_nat (g - c) + Z.to_nat c)%nat with (Z.to_nat g) by lia.
  replace (g <? INT_MAX) with true by (symmetry; apply Z.ltb_lt; lia).
  reflexivity.
Qed.

(** *** Counting the threads that have left *)

Lemma exited_count_le (ws : list (@worker T)) : (exited_count ws <= length ws)%nat.
Proof.
  induction ws as [| w ws IH]; simpl; [lia |]. destruct (is_exited w); lia.
Qed.

Lemma exited_count_lt (ws : list (@worker T)) : forall i w,
  ws !! i = Some w -> is_exited w = false -> (exited_count ws < length ws)%nat.
Proof.
  induction ws as [| w0 ws IH]; intros i w Hi Hw; [discriminate |].
  destruct i as [| i]; simpl in *.
  - injection Hi as ->. rewrite Hw. pose proof (exited_count_le ws). lia.
  - specialize (IH i w Hi Hw). destruct (is_exited w0); lia.
Qed.

Lemma exited_count_insert (ws : list (@worker T)) : forall i w w',
  ws !! i = Some w -> is_exited w = false ->
  exited_count (<[i := w']> ws)
  = ((if is_exited w' then 1 else 0) + exited_count ws)%nat.
Proof.
  induction ws as [| w0 ws IH]; intros i w w' Hi Hw; [discriminate |].
  destruct i as [| i]; simpl in *.
  - injection Hi as ->. rewrite Hw. lia.
  - rewrite (IH i w w' Hi Hw). destruct (is_exited w0), (is_exited w'); lia.
Qed.

Lemma all_exited_count (s : @system T Tile) :
  all_exited s = true -> exited_count (workers s) = length (workers s).
Proof.
  unfold all_exited. induction (workers s) as [| w ws IH]; simpl; [reflexivity |].
  intros Hall. apply andb_prop in Hall as [-> Hrest]. rewrite (IH Hrest). lia.
Qed.

Lemma some_not_exited (s : @system T Tile) :
  all_exited s = false ->
  exists i w, workers s !! i = Some w /\ is_exited w = false.
Proof.
  unfold all_exited. induction (workers s) as [| w ws IH]; simpl; [discriminate |].
  destruct (is_exited w) eqn:Hw; simpl.
  - intros Hrest. destruct (IH Hrest) as (i & w' & Hi & Hw').
    exists (S i), w'. split; assumption.
  - intros _. exists 0%nat, w. split; [reflexivity | assumption].
Qed.

(** *** The invariant *)

Lemma worker_ok_later g w : ok g w -> ok (g + 1) w.
Proof.
  unfold worker_ok. intros (Hc & Hit & Hpc). split; [lia |]. split; [exact Hit |].
  destruct (at_pc w); lia.
Qed.

Lemma init_invariant : Inv (init start W).
Proof.
  split; simpl.
  - lia.
  - apply length_replicate.
  - apply Forall_replicate. unfold worker_ok. simpl. repeat split; lia.
  - reflexivity.
  - constructor.
  - unfold taken. simpl.
    assert (exited_count (replicate W {| iter := start; currentIndex := 0;
                                         at_pc := AtStart |}) = 0%nat) as ->
      by (induction W as [| n IH]; simpl; [reflexivity | exact IH]).
    reflexivity.
Qed.

Hypothesis Henum : enumerates incr exhausted start L.
Hypothesis Hint : Z.of_nat L + Z.of_nat W <= INT_MAX.

(** The step of a thread that is still looping, whichever of the two call
    sites it stands at. *)
Lemma step_running (s : @system T Tile) i w :
  workers s !! i = Some w -> is_exited w = false ->
  step incr exhausted deref i s
  = match incrementIterator incr (iter w) (currentIndex w) (globalIteratorIndex s) with
    | None => None
    | Some (it, c, g) =>
        Some {| globalIteratorIndex := g;
                workers := <[i := {| iter := it; currentIndex := c;
                                     at_pc := if exhausted it then Exited else InBody |}]>
                             (workers s);
                claims := if exhausted it then claims s
                          else claims s ++ [ {| who := i; index := c; tile := deref it |} ] |}
    end.
Proof.
  intros Hi Hw. unfold step. rewrite Hi. unfold is_exited in Hw.
  destruct (at_pc w); [reflexivity | reflexivity | discriminate].
Qed.

Lemma taken_before_end g : 0 <= g < Z.of_nat L -> taken L g = Z.to_nat g.
Proof. unfold taken. lia. Qed.

Lemma taken_past_end g : Z.of_nat L <= g -> taken L g = L.
Proof. unfold taken. lia. Qed.

(** A thread that has not left its loop makes its next call without
    overflow; the invariant holds again afterwards, and less is left to do. *)
Lemma step_active (s : @system T Tile) i w :
  Inv s -> workers s !! i = Some w -> is_exited w = false ->
  exists s',
    step incr exhausted deref i s = Some s' /\ Inv s' /\
    (remaining L W s' < remaining L W s)%nat.
Proof.
  intros [Hg Hlen Hws Hcl Hwho Hcnt] Hi Hw.
  pose proof (Forall_lookup_1 _ _ _ _ Hws Hi) as (Hc & Hit & _).
  pose proof (exited_count_lt _ _ _ Hi Hw) as Hlt. rewrite Hlen in Hlt.
  pose proof (lookup_lt_Some _ _ _ Hi) as Hi_lt. rewrite Hlen in Hi_lt.
  pose proof (fun w' => exited_count_insert _ _ _ w' Hi Hw) as Hins.
  rewrite (step_running s i w Hi Hw).
  set (g := globalIteratorIndex s) in *.
  assert (Hmax : g < INT_MAX) by (unfold taken in Hcnt; lia).
  rewrite (incrementIterator_claims _ _ g Hc Hmax Hit), Henum.
  assert (Hothers : Forall (ok (g + 1)) (workers s))
    by (eapply Forall_impl; [exact Hws | intros; now apply worker_ok_later]).
  eexists. split; [reflexivity |].
  case_bool_decide as Hend.
  - (* past the end: the thread leaves its loop *)
    assert (Hfull : taken L g = L) by (apply taken_past_end; lia).
    assert (Hfull' : taken L (g + 1) = L) by (apply taken_past_end; lia).
    split; [split |]; cbn [globalIteratorIndex workers claims].
    + lia.
    + now rewrite length_insert.
    + apply Forall_insert; [exact Hothers |].
      unfold worker_ok. cbn [iter currentIndex at_pc]. repeat split; lia.
    + now rewrite Hfull', <- Hfull.
    + exact Hwho.
    + rewrite Hins, Hfull'. rewrite Hfull in Hcnt. cbn [is_exited at_pc]. lia.
    + unfold remaining. cbn [globalIteratorIndex workers].
      fold g. rewrite Hins, Hfull, Hfull'. cbn [is_exited at_pc]. lia.
  - (* a tile of the enumeration: the thread takes it up *)
    assert (Hpart : taken L g = Z.to_nat g) by (apply taken_before_end; lia).
    assert (Hpart' : taken L (g + 1) = S (Z.to_nat g)) by (unfold taken; lia).
    split; [split |]; cbn [globalIteratorIndex workers claims].
    + lia.
    + now rewrite length_insert.
    + apply Forall_insert; [exact Hothers |].
      unfold worker_ok. cbn [iter currentIndex at_pc]. repeat split; lia.
    + rewrite Hpart', seq_S, !map_app, Hcl, Hpart. cbn [map index tile Nat.add].
      now rewrite Z2Nat.id by lia.
    + apply Forall_app. split; [exact Hwho |]. now repeat constructor.
    + rewrite Hins, Hpart'. rewrite Hpart in Hcnt. cbn [is_exited at_pc]. lia.
    + unfold remaining. cbn [globalIteratorIndex workers].
      fold g. rewrite Hins, Hpart, Hpart'. cbn [is_exited at_pc]. lia.
Qed.

(** A thread that has left, or a number that names no thread, does nothing. *)
Lemma step_idle (s : @system T Tile) i :
  (forall w, workers s !! i = Some w -> is_exited w = true) ->
  step incr exhausted deref i s = Some s.
Proof.
  intros Hi. unfold step. destruct (workers s !! i) as [w |] eqn:Hw; [| reflexivity].
  specialize (Hi w eq_refl). unfold is_exited in Hi.
  destruct (at_pc w); [discriminate .. | reflexivity].
Qed.

Lemma step_invariant (s : @system T Tile) i :
  Inv s -> exists s', step incr exhausted deref i s = Some s' /\ Inv s'.
Proof.
  intros HI. destruct (workers s !! i) as [w |] eqn:Hw.
  - destruct (is_exited w) eqn:Hex.
    + exists s. split; [| exact HI]. apply step_idle. intros w' Hw'. congruence.
    + destruct (step_active s i w HI Hw Hex) as (s' & Hs & HI' & _). eauto.
  - exists s. split; [| exact HI]. apply step_idle. intros w' Hw'. congruence.
Qed.

(** No interleaving overflows the counter or breaks the invariant. *)
Lemma run_invariant sched : forall s : @system T Tile,
  Inv s -> exists s', run incr exhausted deref sched s = Some s' /\ Inv s'.
Proof.
  induction sched as [| i sched IH]; intros s HI; simpl.
  - eauto.
  - destruct (step_invariant s i HI) as (s1 & -> & HI1). apply IH, HI1.
Qed.

(** From wherever the system stands, letting threads that still loop make
    their calls brings every thread out of its loop. *)
Lemma run_to_exhaustion n : forall s : @system T Tile,
  Inv s -> (remaining L W s <= n)%nat ->
  exists sched s',
    run incr exhausted deref sched s = Some s' /\ Inv s' /\ all_exited s' = true.
Proof.
  induction n as [| n IH]; intros s HI Hn.
  - destruct (all_exited s) eqn:Hall; [exists [], s; auto |].
    destruct (some_not_exited s Hall) as (i & w & Hi & Hw).
    destruct (step_active s i w HI Hi Hw) as (s1 & _ & _ & Hlt). lia.
  - destruct (all_exited s) eqn:Hall; [exists [], s; auto |].
    destruct (some_not_exited s Hall) as (i & w & Hi & Hw).
    destruct (step_active s i w HI Hi Hw) as (s1 & Hs & HI1 & Hlt).
    destruct (IH s1 HI1 ltac:(lia)) as (sched & s' & Hr & HI' & Hall').
    exists (i :: sched), s'. simpl. rewrite Hs. auto.
Qed.

(** The counter stays within [L + W]: each thread makes one call more than
    it takes up tiles. *)
Lemma invariant_range (s : @system T Tile) :
  Inv s -> 0 <= globalIteratorIndex s <= Z.of_nat L + Z.of_nat W.
Proof.
  intros [Hg Hlen _ _ _ Hcnt]. pose proof (exited_count_le (workers s)) as Hle.
  rewrite Hlen in Hle. unfold taken in Hcnt. lia.
Qed.

(** What the invariant says about the tiles taken up so far. *)
Lemma invariant_claims (s : @system T Tile) :
  Inv s ->
  map index (claims s) = map Z.of_nat (seq 0 (taken L (globalIteratorIndex s))) /\
  map tile (claims s)
  = take (Z.to_nat (globalIteratorIndex s)) (enumeration incr deref start L).
Proof.
  intros [_ _ _ Hcl _ _]. split.
  - apply (f_equal (map fst)) in Hcl. rewrite !map_map in Hcl. exact Hcl.
  - apply (f_equal (map snd)) in Hcl. rewrite !map_map in Hcl. cbn [snd] in Hcl.
    unfold enumeration. rewrite <- fmap_take, take_seq. exact Hcl.
Qed.

Lemma invariant_complete (s : @system T Tile) :
  (1 <= W)%nat -> Inv s -> all_exited s = true ->
  map index (claims s) = map Z.of_nat (seq 0 L) /\
  map tile (claims s) = enumeration incr deref start L.
Proof.
  intros HW HI Hall. destruct (invariant_claims s HI) as [Hidx Htile].
  destruct HI as [Hg Hlen _ _ _ Hcnt].
  rewrite (all_exited_count s Hall), Hlen in Hcnt.
  assert (Hfull : taken L (globalIteratorIndex s) = L) by (unfold taken in *; lia).
  rewrite Hfull in Hidx. split; [exact Hidx |].
  rewrite Htile. apply take_ge. unfold enumeration. rewrite length_map, length_seq.
  unfold taken in *. lia.
Qed.

(** C1. [W >= 1] threads, each with its own iterator over the same
    enumeration of [L] tiles and its own index starting at 0, call
    [incrementIterator] in any interleaving, where [L + W <= INT_MAX]
    ([Hint]; the counter is an [int] that ends at [L + W]). No call
    overflows the counter.
    At every moment the tiles taken up so far, in the order in which they
    were taken, carry the indices 0, 1, 2, ... without gap or repetition and
    are the first [globalIteratorIndex] tiles of the enumeration, each taken
    by one of the [W] threads. When every thread has left its loop these are
    exactly the indices 0 .. L-1 and the whole enumeration; and from every
    such moment the threads can run on until all of them have left. *)
Theorem exactly_once_claim (sched : list nat) :
  (1 <= W)%nat ->
  exists s,
    run incr exhausted deref sched (init start W) = Some s /\
    0 <= globalIteratorIndex s <= Z.of_nat L + Z.of_nat W /\
    map index (claims s) = map Z.of_nat (seq 0 (taken L (globalIteratorIndex s))) /\
    NoDup (map index (claims s)) /\
    map tile (claims s)
    = take (Z.to_nat (globalIteratorIndex s)) (enumeration incr deref start L) /\
    Forall (fun c => (who c < W)%nat) (claims s) /\
    (all_exited s = true ->
       map index (claims s) = map Z.of_nat (seq 0 L) /\
       map tile (claims s) = enumeration incr deref start L) /\
    exists sched' s',
      run incr exhausted deref sched' s = Some s' /\ all_exited s' = true /\
      map index (claims s') = map Z.of_nat (seq 0 L) /\
      map tile (claims s') = enumeration incr deref start L.
Proof.
  intros HW.
  destruct (run_invariant sched _ init_invariant) as (s & Hrun & HI).
  exists s. split; [exact Hrun |].
  split; [now apply invariant_range |].
  destruct (invariant_claims s HI) as [Hidx Htile].
  split; [exact Hidx |]. split.
  { rewrite Hidx. apply (NoDup_fmap_2 Z.of_nat), NoDup_seq. }
  split; [exact Htile |]. split; [apply (inv_who _ _ _ _ _ _ HI) |].
  split; [now apply invariant_complete |].
  destruct (run_to_exhaustion _ s HI (Nat.le_refl _)) as (sched' & s' & Hrun' & HI' & Hall').
  exists sched', s'. split; [exact Hrun' |]. split; [exact Hall' |].
  now apply invariant_complete.
Qed.

End Protocol.

(** The scan over the five tiles of the scenario is an enumeration of
    length 5. *)
Lemma scan_advance k :
  advance ScanIterator.incr k 0%nat = Nat.min k (length ScanIterator.tiles).
Proof.
  unfold advance. induction k as [| k IH]; [reflexivity |].
  simpl Nat.iter. rewrite IH. unfold ScanIterator.incr.
  destruct (Nat.ltb_spec (Nat.min k (length ScanIterator.tiles))
                         (length ScanIterator.tiles)); lia.
Qed.

Lemma scan_enumerates :
  enumerates ScanIterator.incr ScanIterator.exhausted 0%nat 5.
Proof.
  intros k. rewrite scan_advance. unfold ScanIterator.exhausted.
  change (length ScanIterator.tiles) with 5%nat.
  case_bool_decide; [apply Nat.leb_le | apply Nat.leb_gt]; lia.
Qed.

Lemma exactly_once_claim_witness :
  (1 <= 2)%nat /\
  exists s,
    run ScanIterator.incr ScanIterator.exhausted ScanIterator.deref
        [0; 1; 1; 0; 1; 0; 0; 1]%nat (init 0%nat 2) = Some s /\
    0 <= globalIteratorIndex s <= Z.of_nat 5 + Z.of_nat 2 /\
    map index (claims s) = map Z.of_nat (seq 0 (taken 5 (globalIteratorIndex s))) /\
    NoDup (map index (claims s)) /\
    map tile (claims s)
    = take (Z.to_nat (globalIteratorIndex s))
           (enumeration ScanIterator.incr ScanIterator.deref 0%nat 5) /\
    Forall (fun c => (who c < 2)%nat) (claims s) /\
    (all_exited s = true ->
       map index (claims s) = map Z.of_nat (seq 0 5) /\
       map tile (claims s) = enumeration ScanIterator.incr ScanIterator.deref 0%nat 5) /\
    exists sched' s',
      run ScanIterator.incr ScanIterator.exhausted ScanIterator.deref sched' s = Some s' /\
      all_exited s' = true /\
      map index (claims s') = map Z.of_nat (seq 0 5) /\
      map tile (claims s') = enumeration ScanIterator.incr ScanIterator.deref 0%nat 5.
Proof.
  assert (HW : (1 <= 2)%nat) by lia.
  assert (Hint : Z.of_nat 5 + Z.of_nat 2 <= INT_MAX) by (unfold INT_MAX; lia).
  split; [exact HW |].
  exact (exactly_once_claim ScanIterator.incr ScanIterator.exhausted ScanIterator.deref
           0%nat 5 2 scan_enumerates Hint [0; 1; 1; 0; 1; 0; 0; 1]%nat HW).
Defined.

(** *** An enumeration as long as [int] reaches *)

Section Overflow.
Context {T Tile : Type}.
Variable incr : T -> T.
Variable exhausted : T -> bool.
Variable deref : T -> Tile.
Variable start : T.
Variables L W : nat.
Hypothesis Henum : enumerates incr exhausted start L.
Hypothesis Hlong : INT_MAX <= Z.of_nat L.

Local Abbreviation looping := (all_looping incr start L W).

Lemma init_looping : looping (init (Tile := Tile) start W).
Proof.
  split; [simpl; unfold INT_MAX; lia |]. split; [apply length_replicate |].
  apply Forall_replicate. split; [| reflexivity].
  unfold worker_ok. simpl. repeat split; lia.
Qed.

(** With the counter at [INT_MAX] the call of a looping thread overflows. *)
Lemma step_looping_overflow (s : @system T Tile) i :
  looping s -> (i < W)%nat -> globalIteratorIndex s = INT_MAX ->
  step incr exhausted deref i s = None.
Proof.
  intros (Hg & Hlen & Hws) Hi Hmax.
  destruct (lookup_lt_is_Some_2 (workers s) i) as [w Hw]; [lia |].
  destruct (Forall_lookup_1 _ _ _ _ Hws Hw) as [_ Hex].
  rewrite (step_running incr exhausted deref s i w Hw Hex).
  unfold incrementIterator. destruct (catch_up _ _ _ _ _) as [it c].
  rewrite Hmax, Z.ltb_irrefl. reflexivity.
Qed.

(** Below [INT_MAX] it takes up a tile: the iterator is not exhausted. *)
Lemma step_looping_next (s : @system T Tile) i :
  looping s -> (i < W)%nat -> globalIteratorIndex s < INT_MAX ->
  exists s', step incr exhausted deref i s = Some s' /\ looping s' /\
             globalIteratorIndex s' = globalIteratorIndex s + 1.
Proof.
  intros (Hg & Hlen & Hws) Hi Hlt.
  destruct (lookup_lt_is_Some_2 (workers s) i) as [w Hw]; [lia |].
  destruct (Forall_lookup_1 _ _ _ _ Hws Hw) as [(Hc & Hit & _) Hex].
  rewrite (step_running incr exhausted deref s i w Hw Hex).
  rewrite (incrementIterator_claims incr start _ _ _ Hc Hlt Hit), Henum.
  rewrite bool_decide_eq_false_2 by lia.
  eexists. split; [reflexivity |]. split; [| reflexivity].
  unfold all_looping. cbn [globalIteratorIndex workers]. split; [lia |].
  split; [now rewrite length_insert |].
  apply Forall_insert.
  - eapply Forall_impl; [exact Hws |]. intros w' [Hok Hex'].
    split; [now apply worker_ok_later | exact Hex'].
  - split; [| reflexivity]. unfold worker_ok. cbn [iter currentIndex at_pc].
    repeat split; lia.
Qed.

Lemma step_looping (s s' : @system T Tile) i :
  looping s -> step incr exhausted deref i s = Some s' -> looping s'.
Proof.
  intros Hloop Hs. destruct (Nat.lt_ge_cases i W) as [Hi | Hi].
  - destruct (Z.lt_ge_cases (globalIteratorIndex s) INT_MAX) as [Hlt | Hge].
    + destruct (step_looping_next s i Hloop Hi Hlt) as (s1 & Hs1 & Hl1 & _).
      congruence.
    + rewrite step_looping_overflow in Hs; [discriminate | assumption .. |].
      destruct Hloop as (Hg & _). lia.
  - rewrite step_idle in Hs; [now injection Hs as <- |].
    intros w Hw. apply lookup_lt_Some in Hw.
    destruct Hloop as (_ & Hlen & _). lia.
Qed.

Lemma run_looping sched : forall s s' : @system T Tile,
  looping s -> run incr exhausted deref sched s = Some s' -> looping s'.
Proof.
  induction sched as [| i sched IH]; intros s s' Hloop; simpl.
  - now intros [= <-].
  - destruct (step incr exhausted deref i s) as [s1 |] eqn:Hs; [| discriminate].
    apply IH. eapply step_looping; eassumption.
Qed.

(** No interleaving brings a thread out of its loop. *)
Lemma never_exhausted sched (s : @system T Tile) :
  (1 <= W)%nat ->
  run incr exhausted deref sched (init start W) = Some s -> all_exited s = false.
Proof.
  intros HW Hrun. destruct (run_looping sched _ s init_looping Hrun) as (_ & Hlen & Hws).
  unfold all_exited. destruct (workers s) as [| w ws]; [simpl in Hlen; lia |].
  apply Forall_cons in Hws as [[_ Hex] _]. simpl. now rewrite Hex.
Qed.

(** One thread calling on its own reaches the overflow with its
    [INT_MAX + 1]-st call. *)
Lemma run_alone_overflows k : forall s : @system T Tile,
  (1 <= W)%nat -> looping s -> globalIteratorIndex s + Z.of_nat k = INT_MAX ->
  run incr exhausted deref (replicate (S k) 0%nat) s = None.
Proof.
  induction k as [| k IH]; intros s HW Hloop Hk.
  - cbn [replicate run]. rewrite step_looping_overflow; [reflexivity | assumption | lia ..].
  - change (replicate (S (S k)) 0%nat) with (0%nat :: replicate (S k) 0%nat).
    cbn [run].
    destruct (step_looping_next s 0%nat Hloop) as (s1 & -> & Hl1 & Hg1); [lia .. |].
    apply IH; [assumption .. | lia].
Qed.

End Overflow.

(** The iterator over the tiles [0 .. n-1] is an enumeration of length [n]. *)
Lemma count_advance n k :
  0 <= n -> advance (CountIterator.incr n) k 0 = Z.min (Z.of_nat k) n.
Proof.
  intros Hn. unfold advance. induction k as [| k IH]; [simpl; lia |].
  rewrite Nat.iter_succ, IH. unfold CountIterator.incr.
  destruct (Z.ltb_spec (Z.min (Z.of_nat k) n) n); lia.
Qed.

Lemma count_enumerates n :
  0 <= n ->
  enumerates (CountIterator.incr n) (CountIterator.exhausted n) 0 (Z.to_nat n).
Proof.
  intros Hn k. rewrite count_advance by assumption. unfold CountIterator.exhausted.
  case_bool_decide; [apply Z.leb_le | apply Z.leb_gt]; lia.
Qed.

Lemma INT_MAX_nonneg : 0 <= INT_MAX.
Proof. unfold INT_MAX. lia. Qed.

(** Without the bound on [L + W] the statement fails: over an enumeration of
    [INT_MAX] tiles, which two threads share, no interleaving brings the
    threads out of their loops, so the run to exhaustion does not exist; the
    call that would find the iterator exhausted is the one that overflows
    the counter, and a thread calling on its own reaches it. *)
Lemma exactly_once_claim_counterexample :
  enumerates (CountIterator.incr INT_MAX) (CountIterator.exhausted INT_MAX) 0
             (Z.to_nat INT_MAX) /\
  (1 <= 2)%nat /\
  (forall sched s,
     run (CountIterator.incr INT_MAX) (CountIterator.exhausted INT_MAX)
         CountIterator.deref sched (init 0 2) = Some s ->
     all_exited s = false) /\
  run (CountIterator.incr INT_MAX) (CountIterator.exhausted INT_MAX)
      CountIterator.deref (replicate (S (Z.to_nat INT_MAX)) 0%nat) (init 0 2) = None /\
  ~ (forall sched,
       exists s,
         run (CountIterator.incr INT_MAX) (CountIterator.exhausted INT_MAX)
             CountIterator.deref sched (init 0 2) = Some s /\
         exists sched' s',
           run (CountIterator.incr INT_MAX) (CountIterator.exhausted INT_MAX)
               CountIterator.deref sched' s = Some s' /\
           all_exited s' = true).
Proof.
  pose proof (count_enumerates INT_MAX INT_MAX_nonneg) as Henum.
  assert (Hlong : INT_MAX <= Z.of_nat (Z.to_nat INT_MAX))
    by (rewrite Z2Nat.id; [lia | exact INT_MAX_nonneg]).
  assert (HW : (1 <= 2)%nat) by lia.
  pose proof (fun sched s =>
                never_exhausted (CountIterator.incr INT_MAX)
                  (CountIterator.exhausted INT_MAX) CountIterator.deref 0
                  (Z.to_nat INT_MAX) 2 Henum Hlong sched s HW) as Hnever.
  split; [exact Henum |]. split; [exact HW |]. split; [exact Hnever |]. split.
  - apply (run_alone_overflows (CountIterator.incr INT_MAX)
             (CountIterator.exhausted INT_MAX) CountIterator.deref 0
             (Z.to_nat INT_MAX) 2 Henum Hlong (Z.to_nat INT_MAX) _ HW).
    + apply init_looping.
    + cbn [init globalIteratorIndex]. rewrite Z2Nat.id; [lia | exact INT_MAX_nonneg].
  - intros Hall. destruct (Hall []) as (s & Hs & sched' & s' & Hs' & Hex).
    cbn [run] in Hs. injection Hs as <-.
    rewrite (Hnever sched' s' Hs') in Hex. discriminate.
Qed.

(** The scenario run: two threads over the five tiles, in one interleaving;
    the tiles are taken in enumeration order, three by one thread and two by
    the other, and both threads have left their loops. *)
Example scenario_two_workers :
  option_map (fun s => (map (fun c => (who c, index c, tile c)) (claims s),
                        globalIteratorIndex s, all_exited s))
    (run ScanIterator.incr ScanIterator.exhausted ScanIterator.deref
         [0; 1; 1; 0; 1; 0; 1]%nat (init 0%nat 2))
  = Some ([ (0%nat, 0, (0, 0, 0)); (1%nat, 1, (0, 1, 0)); (1%nat, 2, (0, 0, 1));
            (0%nat, 3, (0, 1, 1)); (1%nat, 4, (1, 0, 0)) ], 7, true).
Proof. vm_compute. reflexivity. Qed.

End CoordinatorFacts.

(** * Further properties of the code *)

(** ** The store: opening, looking up, metadata *)

Module MBTilerMore.
Import MachInt MachIntFacts MBTiler MBTilerFacts.

(** A SELECT that fails after some rows makes [loadTiles] throw. *)
Lemma loadTiles_loop_fault (tbl : list TileRecord) : forall n (ts : gset Z),
  exists ts',
    loadTiles_loop (select_tiles tbl (Some n)) ts
    = Throws (runtime_error "Could not fetch rendered rows from database") ts'.
Proof.
  unfold select_tiles.
  induction tbl as [| r tbl IH]; intros n ts.
  - destruct n; simpl; eauto.
  - destruct n as [| n]; simpl; [eauto |]. apply IH.
Qed.

(** X1. The constructor returns only when no SQLite call has failed, and the
    store it returns holds the file, a free mutex and the identifier of every
    row of the table: there is no store with a partly loaded set. *)
Theorem open_returns_complete file env s :
  open file env = Returns s ->
  open_ok env = true /\ exec_ok env = true /\ select_fault env = None /\
  s = {| db := file; tiles := list_to_set (map row_id (tiles_table file));
         mtx := false |}.
Proof.
  destruct env as [[|] [|] [n |]]; unfold open; cbn [open_ok exec_ok negb];
    try discriminate.
  - unfold loadTiles. cbn [select_fault db tiles_table tiles].
    destruct (loadTiles_loop_fault (tiles_table file) n ∅) as [ts' ->].
    discriminate.
  - intros Hs. change (open file no_fault = Returns s) in Hs.
    rewrite open_no_fault in Hs. injection Hs as <-. auto.
Qed.

Example open_select_fault :
  open {| tiles_table := [row_of [] (1, 2, 3); row_of [] (0, 1, 0)];
          metadata_table := [] |}
       {| open_ok := true; exec_ok := true; select_fault := Some 1%nat |}
  = Throws (runtime_error "Could not fetch rendered rows from database")
           {| db := {| tiles_table := [row_of [] (1, 2, 3); row_of [] (0, 1, 0)];
                       metadata_table := [] |};
              tiles := {[ pack 1 2 3 ]} ∪ ∅; mtx := false |}.
Proof. reflexivity. Qed.

Lemma open_returns_complete_witness :
  let file := {| tiles_table := [row_of [] (1, 2, 3); row_of [] (0, 1, 0)];
                 metadata_table := [("format", "quantized-mesh")] |} in
  let s := {| db := file; tiles := list_to_set [pack 1 2 3; pack 0 1 0]; mtx := false |} in
  (open file no_fault = Returns s /\
   s = {| db := file; tiles := list_to_set (map row_id (tiles_table file));
          mtx := false |}) /\
  (forall s', open file {| open_ok := true; exec_ok := true;
                           select_fault := Some 1%nat |} <> Returns s') /\
  (forall s', open file {| open_ok := true; exec_ok := false;
                           select_fault := None |} <> Returns s').
Proof.
  intros file s.
  assert (Hopen : open file no_fault = Returns s) by apply open_no_fault.
  split; [split; [exact Hopen |] |].
  - apply (open_returns_complete file no_fault s Hopen).
  - split; intros s' Hs'; apply (open_returns_complete file _ s') in Hs';
      [destruct Hs' as (_ & _ & Hfault & _) | destruct Hs' as (_ & Hexec & _)];
      discriminate.
Defined.

(** The identifier of a row whose columns are within the bounds. *)
Lemma row_id_of_bounded r :
  in_bounds (zoom_level r) (tile_column r) (tile_row r) ->
  row_id r = pack (zoom_level r) (tile_column r) (tile_row r).
Proof.
  intros (Hz & Hx & Hy). unfold row_id, sqlite3_column_int.
  rewrite !to_int_small by lia. rewrite !to_uint64_small by lia. reflexivity.
Qed.

(** X2. On a store opened on a file all of whose rows lie within the 6/29/29-bit
    bounds, [testTileExists] answers [true] for an in-bounds coordinate
    exactly when the table has a row with that coordinate. *)
Theorem testTileExists_exact file s z x y :
  Forall (fun r => in_bounds (zoom_level r) (tile_column r) (tile_row r))
         (tiles_table file) ->
  in_bounds z x y ->
  open file no_fault = Returns s ->
  (testTileExists s z x y = true <->
   exists r, r ∈ tiles_table file /\
             zoom_level r = z /\ tile_column r = x /\ tile_row r = y).
Proof.
  intros Hrows Hb. rewrite open_no_fault. intros [= <-].
  rewrite testTileExists_in_bounds by assumption. cbn [tiles].
  rewrite bool_decide_eq_true, elem_of_list_to_set, list_elem_of_fmap.
  rewrite Forall_forall in Hrows.
  split; intros (r & Hr1 & Hr2).
  - exists r. split; [exact Hr2 |].
    rewrite (row_id_of_bounded r (Hrows r Hr2)) in Hr1.
    destruct (pack_fields _ _ _ _ _ _ Hb (Hrows r Hr2) Hr1) as (-> & -> & ->). auto.
  - destruct Hr2 as (<- & <- & <-). exists r. split; [| exact Hr1].
    symmetry. apply row_id_of_bounded, Hrows, Hr1.
Qed.

Lemma testTileExists_exact_witness :
  let file := {| tiles_table := [ {| zoom_level := 1; tile_column := 0; tile_row := 1;
                                     tile_data := [] |} ];
                 metadata_table := [] |} in
  let s := {| db := file; tiles := list_to_set (map row_id (tiles_table file));
              mtx := false |} in
  testTileExists s 1 1 0 = true <->
  exists r, r ∈ tiles_table file /\
            zoom_level r = 1 /\ tile_column r = 1 /\ tile_row r = 0.
Proof.
  intros file s. apply (testTileExists_exact file s 1 1 0).
  - repeat constructor; simpl; lia.
  - unfold in_bounds. lia.
  - apply open_no_fault.
Defined.

(** A row beyond 29 bits spills into the column field of the identifier. *)
Lemma pack_row_spill z x y :
  in_bounds z x y -> pack z 0 (x * 2 ^ 29 + y) = pack z x y.
Proof.
  intros Hb. rewrite (pack_sum z x y Hb). destruct Hb as (Hz & Hx & Hy).
  unfold pack. rewrite (shl64_small z 58) by lia.
  change (shl64 0 29) with 0. rewrite Z.lor_0_r.
  rewrite lor_shifted_low by lia. lia.
Qed.

(** X3. The bounds are not enforced. After a tile with column 0 and a row of
    [x * 2^29 + y] (with [0 < x < 4], so that the row fits an [int]) has been
    inserted, a store opened on the file answers [true] for the in-bounds
    coordinate with column [x] and row [y], although the table, when it held
    no row before, has no row of column [x]. *)
Theorem out_of_bounds_row_aliases blob z x y s s' :
  in_bounds z x y -> 0 < x < 4 ->
  insertBlob SQLITE_DONE blob z 0 (x * 2 ^ 29 + y) s = Returns s' ->
  exists s'',
    open (close s') no_fault = Returns s'' /\
    testTileExists s'' z x y = true /\
    (tiles_table (db s) = [] ->
     forall r, r ∈ tiles_table (db s'') -> tile_column r <> x).
Proof.
  intros Hb Hx E. apply insertBlob_returns in E as (_ & _ & _ & _ & _ & Hr).
  rewrite open_no_fault. eexists. split; [reflexivity |].
  destruct Hb as (Hbz & Hbx & Hby). split.
  - rewrite testTileExists_in_bounds by (unfold in_bounds; lia).
    cbn [tiles]. apply bool_decide_eq_true, elem_of_list_to_set, list_elem_of_fmap.
    exists {| zoom_level := to_int z; tile_column := to_int 0;
              tile_row := to_int (x * 2 ^ 29 + y); tile_data := blob |}.
    split; [| unfold close; rewrite Hr; apply elem_of_app; right;
              apply list_elem_of_here].
    unfold row_id, sqlite3_column_int. cbn [zoom_level tile_column tile_row].
    rewrite !(to_int_small z), !(to_int_small 0), !(to_int_small (x * 2 ^ 29 + y)) by lia.
    rewrite !to_uint64_small by lia.
    symmetry. apply pack_row_spill. unfold in_bounds. lia.
  - intros Hnil r. cbn [db]. unfold close. rewrite Hr, Hnil. cbn [app].
    rewrite list_elem_of_singleton. intros ->. cbn [tile_column].
    rewrite to_int_small by lia. lia.
Qed.

Lemma out_of_bounds_row_aliases_witness :
  in_bounds 2 1 5 /\ 0 < 1 < 4 /\
  exists s'',
    open (close {| db := {| tiles_table := [row_of [] (2, 0, 1 * 2 ^ 29 + 5)];
                            metadata_table := [] |};
                   tiles := ∅; mtx := false |}) no_fault = Returns s'' /\
    testTileExists s'' 2 1 5 = true /\
    (tiles_table empty_file = [] ->
     forall r, r ∈ tiles_table (db s'') -> tile_column r <> 1).
Proof.
  assert (B : in_bounds 2 1 5) by (unfold in_bounds; lia).
  assert (X : 0 < 1 < 4) by lia.
  split; [exact B |]. split; [exact X |].
  apply (out_of_bounds_row_aliases [] 2 1 5
           {| db := empty_file; tiles := ∅; mtx := false |} _ B X).
  reflexivity.
Defined.

Lemma length_remove_dups_le (cs : list (Z * Z * Z)) :
  (length (remove_dups cs) <= length cs)%nat.
Proof.
  induction cs as [| c cs IH]; simpl; [lia |].
  destruct (decide_rel _ _ _); simpl; lia.
Qed.

(** The set built from a list is the set built from its distinct elements. *)
Lemma list_to_set_pack_remove_dups (cs : list (Z * Z * Z)) :
  list_to_set (C := gset Z) (map (fun '(z, x, y) => pack z x y) cs)
  = list_to_set (map (fun '(z, x, y) => pack z x y) (remove_dups cs)).
Proof.
  apply set_eq. intros k. rewrite !elem_of_list_to_set, !list_elem_of_fmap.
  split; intros (c & -> & Hc); exists c; (split; [reflexivity |]);
    now apply elem_of_remove_dups.
Qed.

(** X4. [numTiles()] counts coordinates, not rows. After any run of inserts of
    in-bounds tiles into a store opened on a new file, repetitions included,
    the table has one row per insert, and a store opened on the file
    afterwards reports the number of distinct coordinates. *)
Theorem numTiles_counts_distinct blob (cs : list (Z * Z * Z)) :
  Forall (fun '(z, x, y) => in_bounds z x y) cs ->
  Z.of_nat (length cs) <= INT_MAX ->
  exists s0 sn sr,
    open empty_file no_fault = Returns s0 /\
    insert_all blob cs s0 = Returns sn /\
    length (tiles_table (db sn)) = length cs /\
    open (close sn) no_fault = Returns sr /\
    numTiles sr = Z.of_nat (length (remove_dups cs)).
Proof.
  intros Hb Hlen.
  set (s0 := {| db := empty_file; tiles := ∅; mtx := false |}).
  destruct (insert_all_returns blob cs s0 eq_refl) as (sn & E & Hm & Ht & Hr).
  subst s0. cbn [db tiles_table app empty_file] in Hr.
  exists {| db := empty_file; tiles := ∅; mtx := false |}, sn. eexists.
  split; [apply open_no_fault |]. split; [exact E |].
  split; [rewrite Hr; apply length_map |].
  split; [apply open_no_fault |].
  unfold numTiles, close. cbn [tiles]. rewrite Hr, row_ids_in_bounds by assumption.
  rewrite list_to_set_pack_remove_dups.
  rewrite size_list_to_set.
  - rewrite length_map. apply to_int_small.
    pose proof (length_remove_dups_le cs) as Hle. unfold INT_MAX in Hlen. lia.
  - apply NoDup_pack; [| apply NoDup_remove_dups].
    rewrite Forall_forall in *. intros c Hc. apply Hb.
    now apply elem_of_remove_dups.
Qed.

Lemma numTiles_counts_distinct_witness :
  exists s0 sn sr,
    open empty_file no_fault = Returns s0 /\
    insert_all [] [(0, 1, 0); (0, 1, 0); (1, 0, 0)] s0 = Returns sn /\
    length (tiles_table (db sn)) = 3%nat /\
    open (close sn) no_fault = Returns sr /\
    numTiles sr = 2.
Proof.
  apply (numTiles_counts_distinct [] [(0, 1, 0); (0, 1, 0); (1, 0, 0)]).
  - unfold in_bounds. repeat constructor; lia.
  - unfold INT_MAX. simpl. lia.
Defined.

(** X5. [setMetadata] is an upsert. When it returns, the table holds the pair
    given, and no other value for that name; the rows of every other name
    are the ones it held before; names that were unique stay unique; and
    neither the table [tiles], nor the set, nor the mutex has changed. *)
Theorem setMetadata_upsert rc name value s s' :
  setMetadata rc name value s = Returns s' ->
  (name, value) ∈ metadata_table (db s') /\
  (forall v, (name, v) ∈ metadata_table (db s') -> v = value) /\
  (forall n v, n <> name ->
     ((n, v) ∈ metadata_table (db s') <-> (n, v) ∈ metadata_table (db s))) /\
  (NoDup (map fst (metadata_table (db s))) ->
   NoDup (map fst (metadata_table (db s')))) /\
  tiles_table (db s') = tiles_table (db s) /\ tiles s' = tiles s /\ mtx s' = mtx s.
Proof.
  unfold setMetadata. destruct rc; try discriminate. intros [= <-].
  cbn [db metadata_table tiles_table tiles mtx].
  repeat split; try reflexivity.
  - apply elem_of_app. right. apply list_elem_of_here.
  - intros v Hv. apply elem_of_app in Hv as [Hv | Hv].
    + apply list_elem_of_filter in Hv as [Hne _]. now elim Hne.
    + apply list_elem_of_singleton in Hv. congruence.
  - intros Hv. apply elem_of_app in Hv as [Hv | Hv].
    + now apply list_elem_of_filter in Hv as [_ Hv].
    + apply list_elem_of_singleton in Hv. congruence.
  - intros Hv. apply elem_of_app. left. apply list_elem_of_filter. auto.
  - intros Hnd. rewrite map_app. apply NoDup_app. split; [| split].
    + induction (metadata_table (db s)) as [| [n v] tbl IH]; [constructor |].
      cbn [map fst] in Hnd. apply NoDup_cons in Hnd as [Hn Hnd].
      rewrite filter_cons. case_decide; [| now apply IH].
      cbn [map fst]. apply NoDup_cons. split; [| now apply IH].
      intros Hin. apply Hn. apply list_elem_of_fmap in Hin as ([n' v'] & -> & Hin).
      apply list_elem_of_filter in Hin as [_ Hin].
      apply list_elem_of_fmap. now exists (n', v').
    + intros n Hn Hn'. apply list_elem_of_singleton in Hn'. cbn in Hn'. subst n.
      apply list_elem_of_fmap in Hn as ([n v] & -> & Hin).
      apply list_elem_of_filter in Hin as [Hne _]. now elim Hne.
    + apply NoDup_singleton.
Qed.

Lemma setMetadata_upsert_witness :
  let s := {| db := {| tiles_table := []; metadata_table := [("format", "png")] |};
              tiles := ∅; mtx := true |} in
  exists s',
    setMetadata SQLITE_DONE "format" "quantized-mesh" s = Returns s' /\
    metadata_table (db s') = [("format", "quantized-mesh")] /\
    (forall v, ("format", v) ∈ metadata_table (db s') -> v = "quantized-mesh") /\
    mtx s' = true.
Proof.
  intros s. eexists. split; [reflexivity |]. split; [reflexivity |].
  pose proof (setMetadata_upsert SQLITE_DONE "format" "quantized-mesh" s _ eq_refl)
    as (_ & Hone & _ & _ & _ & _ & Hm).
  split; [exact Hone | exact Hm].
Defined.

End MBTilerMore.

(** ** The compressor: what the buffer holds *)

Module ZStreamMore.
Import ZStream.

Section Engine.
Context `{Zlib}.

Lemma drain_keeps_prefix fuel fl : forall s,
  keeps_prefix (buffer s) (drain fuel fl s).
Proof.
  induction fuel as [| fuel IH]; intros s; simpl; [exact I |].
  destruct (is_stream_error _); [simpl; reflexivity |].
  destruct (_ =? 0).
  - specialize (IH {| stream_state := state' (deflate (stream_state s) (next_in s)
                                                      TMPSIZE fl);
                      next_in := rest_in (deflate (stream_state s) (next_in s)
                                                  TMPSIZE fl);
                      buffer := buffer s ++
                                take (Z.to_nat (TMPSIZE - (TMPSIZE - Z.of_nat (length
                                  (produced (deflate (stream_state s) (next_in s)
                                                     TMPSIZE fl))))))
                                     (produced (deflate (stream_state s) (next_in s)
                                                        TMPSIZE fl)) |}).
    cbn [buffer] in IH. unfold keeps_prefix in *.
    destruct (drain _ _ _); try exact I;
      (etransitivity; [apply prefix_app_r; reflexivity | exact IH]).
  - simpl. now apply prefix_app_r.
Qed.

Lemma deflateRound_keeps_prefix fuel data fl s :
  keeps_prefix (buffer s) (deflateRound fuel data fl s).
Proof.
  unfold deflateRound.
  pose proof (drain_keeps_prefix fuel fl
                {| stream_state := stream_state s; next_in := data;
                   buffer := buffer s |}) as Hd.
  cbn [buffer] in Hd.
  destruct (drain _ _ _) as [s' | e s' | | s' |]; simpl in *; try exact Hd.
  destruct (avail_in s' =? 0); exact Hd.
Qed.

Lemma writes_keeps_prefix fuel chunks : forall s,
  keeps_prefix (buffer s) (writes fuel chunks s).
Proof.
  induction chunks as [| c chunks IH]; intros s; simpl; [reflexivity |].
  pose proof (deflateRound_keeps_prefix fuel c Z_NO_FLUSH s) as Hw.
  unfold write. destruct (deflateRound _ _ _ _) as [s' | e s' | | s' |];
    simpl in *; try exact Hw.
  specialize (IH s'). unfold keeps_prefix in *.
  destruct (writes _ _ _); try exact I; (etransitivity; [exact Hw | exact IH]).
Qed.

(** X6. Whatever the engine does, [write], a run of [write]s and [finish] only
    append to the buffer: the bytes it held before the call are still at its
    front afterwards, also when the call throws. *)
Theorem buffer_append_only fuel ptr chunks (s : zstream) :
  keeps_prefix (buffer s) (write fuel ptr s) /\
  keeps_prefix (buffer s) (writes fuel chunks s) /\
  keeps_prefix (buffer s) (finish fuel s).
Proof.
  split; [apply deflateRound_keeps_prefix |].
  split; [apply writes_keeps_prefix | apply deflateRound_keeps_prefix].
Qed.

(** A round looks at the engine state and the buffer of the object only; the
    input left from an earlier round plays no part. *)
Lemma deflateRound_fresh_input fuel data fl (s1 s2 : zstream) :
  stream_state s1 = stream_state s2 -> buffer s1 = buffer s2 ->
  deflateRound fuel data fl s1 = deflateRound fuel data fl s2.
Proof. intros Hst Hb. unfold deflateRound. now rewrite Hst, Hb. Qed.

End Engine.

End ZStreamMore.

(** ** The serializer: one tile after another *)

Module SerializerMore.
Import MachInt MBTiler MBTilerFacts Serializer SerializeTileFacts ZStreamMore.

Section Engine.
Context `{ZStream.Zlib}.

(** X7. The compressed content of a tile does not depend on what the stream
    object held before the call (its buffer, its pending input), only on the
    engine state that [deflateReset] leaves: two serializers whose streams
    reset to the same engine state end [compress] in the same way with the
    same stream. *)
Theorem compress_forgets_previous fuel tile wvn (s1 s2 : serializer) :
  ZStream.deflateReset (ZStream.stream_state (gzipStream s1))
  = ZStream.deflateReset (ZStream.stream_state (gzipStream s2)) ->
  outcome_map gzipStream (compress fuel tile wvn s1)
  = outcome_map gzipStream (compress fuel tile wvn s2).
Proof.
  intros Hreset. unfold compress.
  assert (Hround : forall data fl,
             ZStream.deflateRound fuel data fl (ZStream.reset (gzipStream s1))
             = ZStream.deflateRound fuel data fl (ZStream.reset (gzipStream s2)))
    by (intros; now apply deflateRound_fresh_input).
  destruct (writeFile tile wvn) as [| c chunks]; cbn [ZStream.writes andThen].
  - unfold ZStream.finish. rewrite Hround.
    now destruct (ZStream.deflateRound _ _ _ _).
  - unfold ZStream.write. rewrite Hround.
    destruct (ZStream.deflateRound _ _ _ _) as [gz | e gz | | gz |];
      cbn [andThen outcome_map]; try reflexivity.
    destruct (ZStream.writes fuel chunks gz) as [gz' | e gz' | | gz' |];
      cbn [andThen outcome_map]; try reflexivity.
    now destruct (ZStream.finish fuel gz').
Qed.

(** What [compress] throws is the exception of the compressor. *)
Lemma drain_throws fuel fl : forall gz e gz',
  ZStream.drain fuel fl gz = Throws e gz' -> e = CTBException "Compression failed".
Proof.
  induction fuel as [| fuel IH]; intros gz e gz'; simpl; [discriminate |].
  destruct (ZStream.is_stream_error _); [now intros [= <- _] |].
  destruct (_ =? 0); [apply IH | discriminate].
Qed.

Lemma deflateRound_throws fuel data fl gz e gz' :
  ZStream.deflateRound fuel data fl gz = Throws e gz' ->
  e = CTBException "Compression failed".
Proof.
  unfold ZStream.deflateRound.
  destruct (ZStream.drain _ _ _) as [s' | e0 s' | | s' |] eqn:Hd; simpl;
    try discriminate.
  - destruct (ZStream.avail_in s' =? 0); discriminate.
  - intros [= <- _]. eapply drain_throws, Hd.
Qed.

Lemma writes_throws fuel chunks : forall gz e gz',
  ZStream.writes fuel chunks gz = Throws e gz' ->
  e = CTBException "Compression failed".
Proof.
  induction chunks as [| c chunks IH]; intros gz e gz'; simpl; [discriminate |].
  unfold ZStream.write.
  destruct (ZStream.deflateRound _ _ _ _) as [s' | e0 s' | | s' |] eqn:Hd; simpl;
    try discriminate.
  - apply IH.
  - intros [= <- _]. eapply deflateRound_throws, Hd.
Qed.

Lemma compress_throws fuel tile wvn (s : serializer) e s1 :
  compress fuel tile wvn s = Throws e s1 -> e = CTBException "Compression failed".
Proof.
  unfold compress.
  destruct (ZStream.writes _ _ _) as [gz | e0 gz | | gz |] eqn:Hw; simpl;
    try discriminate.
  - unfold ZStream.finish.
    destruct (ZStream.deflateRound _ _ _ _) as [gz' | e1 gz' | | gz' |] eqn:Hf; simpl;
      try discriminate.
    intros [= <- _]. eapply deflateRound_throws, Hf.
  - intros [= <- _]. eapply writes_throws, Hw.
Qed.

(** X8. Within a run the resume gate does not see the tiles of that run: after
    [serializeTile] has returned, [mustSerializeCoordinate] answers for every
    coordinate, the one just written included, what it answered before. *)
Theorem serializeTile_gate_unchanged fuel rc tile wvn (s s' : serializer) c :
  serializeTile fuel rc tile wvn s = Returns s' ->
  mustSerializeCoordinate s' c = mustSerializeCoordinate s c.
Proof.
  intros E. apply serializeTile_returns in E as (Hr & Ht & _).
  unfold mustSerializeCoordinate, testTileExists. now rewrite Hr, Ht.
Qed.

(** X9. Once [serializeTile] has thrown the exception of the store, no later call
    on that serializer returns: it ends in the exception of the compressor,
    or runs on, or waits on the mutex that the failed insert left locked. *)
Theorem serializeTile_after_store_failure
        fuel rc tile wvn (s s1 : serializer) what fuel' rc' tile' wvn' :
  serializeTile fuel rc tile wvn s = Throws (runtime_error_ptr what) s1 ->
  match serializeTile fuel' rc' tile' wvn' s1 with
  | Returns _ => False
  | Throws e _ => e = CTBException "Compression failed"
  | AssertFails _ | Blocks | OutOfFuel => True
  end.
Proof.
  intros E.
  assert (Hlocked : mtx (mbtiler s1) = true).
  { revert E. unfold serializeTile.
    destruct (compress fuel tile wvn s) as [s0 | e s0 | | s0 |] eqn:Hc; simpl;
      try discriminate.
    - unfold insertBlob. destruct (mtx (mbtiler s0)); [discriminate |].
      destruct rc; simpl; try discriminate; now intros [= _ <-].
    - intros [= -> ->]. apply compress_throws in Hc. discriminate. }
  unfold serializeTile. pose proof (compress_outcome fuel' tile' wvn' s1) as Hc.
  destruct (compress fuel' tile' wvn' s1) as [s2 | e s2 | | s2 |] eqn:Hc2; simpl;
    try exact I.
  - destruct Hc as [Hm _]. unfold insertBlob. now rewrite Hm, Hlocked.
  - eapply compress_throws, Hc2.
Qed.

End Engine.

Lemma compress_forgets_previous_witness :
  let tile := {| coordinate := {| zoom := 2; x := 3; y := 1 |};
                 writeFile := fun _ => [[x01; x02]; [x03]]%byte |} in
  let store := {| db := empty_file; tiles := ∅; mtx := false |} in
  let s1 := {| mbtiler := store; resume := false;
               gzipStream := @ZStream.mkStream StoredEngine.stored
                               (StoredEngine.mkState [] false) [] [] |} in
  let s2 := {| mbtiler := store; resume := false;
               gzipStream := @ZStream.mkStream StoredEngine.stored
                               (StoredEngine.mkState [x09]%byte true) [x08]%byte
                               [x07; x07]%byte |} in
  outcome_map gzipStream (compress 1 tile false s1)
  = outcome_map gzipStream (compress 1 tile false s2).
Proof.
  intros tile store s1 s2.
  apply (@compress_forgets_previous StoredEngine.stored 1 tile false s1 s2).
  reflexivity.
Defined.

Lemma serializeTile_gate_unchanged_witness :
  let tile := {| coordinate := {| zoom := 2; x := 3; y := 1 |};
                 writeFile := fun _ => [[x01; x02]; [x03]]%byte |} in
  let s0 := {| mbtiler := {| db := empty_file; tiles := ∅; mtx := false |};
               resume := true;
               gzipStream := @ZStream.mkStream StoredEngine.stored
                               (StoredEngine.mkState [] false) [] [] |} in
  exists s',
    serializeTile 1 SQLITE_DONE tile false s0 = Returns s' /\
    mustSerializeCoordinate s' (coordinate tile) = true.
Proof.
  intros tile s0. eexists. split; [reflexivity |].
  rewrite (@serializeTile_gate_unchanged StoredEngine.stored 1 SQLITE_DONE tile false
             s0 _ (coordinate tile) eq_refl).
  reflexivity.
Defined.

Lemma serializeTile_after_store_failure_witness :
  let tile := {| coordinate := {| zoom := 2; x := 3; y := 1 |};
                 writeFile := fun _ => [[x01; x02]; [x03]]%byte |} in
  let s0 := {| mbtiler := {| db := empty_file; tiles := ∅; mtx := false |};
               resume := false;
               gzipStream := @ZStream.mkStream StoredEngine.stored
                               (StoredEngine.mkState [] false) [] [] |} in
  let s1 := {| mbtiler := {| db := empty_file; tiles := ∅; mtx := true |};
               resume := false;
               gzipStream := @ZStream.mkStream StoredEngine.stored
                               (StoredEngine.mkState [] true) []
                               [x01; x02; x03]%byte |} in
  serializeTile 1 (SQLITE_FAIL 13) tile false s0
  = Throws (runtime_error_ptr "SQLite Error: ") s1 /\
  match serializeTile 1 SQLITE_DONE tile false s1 with
  | Returns _ => False
  | Throws e _ => e = CTBException "Compression failed"
  | AssertFails _ | Blocks | OutOfFuel => True
  end.
Proof.
  intros tile s0 s1.
  assert (Hfail : serializeTile 1 (SQLITE_FAIL 13) tile false s0
                  = Throws (runtime_error_ptr "SQLite Error: ") s1) by reflexivity.
  split; [exact Hfail |].
  exact (@serializeTile_after_store_failure StoredEngine.stored
           1 (SQLITE_FAIL 13) tile false s0 s1 "SQLite Error: "
           1 SQLITE_DONE tile false Hfail).
Defined.

End SerializerMore.

(** ** The coordinator: the call itself, and where the threads end *)

Module CoordinatorMore.
Import MachInt Coordinator CoordinatorFacts.

Section Protocol.
Context {T Tile : Type}.
Variable incr : T -> T.
Variable exhausted : T -> bool.
Variable deref : T -> Tile.

(** X11. A call of [incrementIterator] in closed form. It returns the larger of
    [currentIndex] and [globalIteratorIndex], having moved the iterator
    forward by their difference when [currentIndex] is behind and not at all
    otherwise, and it raises [globalIteratorIndex] by one; at [INT_MAX] the
    increment overflows. *)
Theorem incrementIterator_closed_form (it : T) (c g : Z) :
  incrementIterator incr it c g
  = if g <? INT_MAX
    then Some (Nat.iter (Z.to_nat (g - c)) incr it, Z.max c g, g + 1)
    else None.
Proof.
  unfold incrementIterator.
  destruct (Z.le_gt_cases c g) as [Hle | Hgt].
  - rewrite catch_up_reaches by lia. now rewrite Z.max_r by lia.
  - replace (Z.to_nat (g - c)) with 0%nat by lia. cbn [catch_up Nat.iter].
    now rewrite Z.max_l by lia.
Qed.

Variable start : T.
Variables L W : nat.
Hypothesis Henum : enumerates incr exhausted start L.
Hypothesis Hint : Z.of_nat L + Z.of_nat W <= INT_MAX.

Local Abbreviation Inv := (invariant incr deref start L W).

Lemma init_distinct : distinct_indices (init (Tile := Tile) start W).
Proof.
  intros i j w w' Hi _ Hw _ _. cbn [init workers] in Hi.
  apply lookup_replicate_1 in Hi as [-> _]. now elim Hw.
Qed.

(** A call returns an index that no thread stands on. *)
Lemma step_distinct (s s' : @system T Tile) i :
  Inv s -> distinct_indices s ->
  step incr exhausted deref i s = Some s' -> distinct_indices s'.
Proof.
  intros HI Hd Hstep.
  destruct (workers s !! i) as [w |] eqn:Hw; cycle 1.
  { rewrite step_idle in Hstep by (intros w' Hw'; congruence).
    now injection Hstep as <-. }
  destruct (is_exited w) eqn:Hex.
  { rewrite step_idle in Hstep by (intros w' Hw'; congruence).
    now injection Hstep as <-. }
  pose proof (inv_workers _ _ _ _ _ _ HI) as Hws.
  pose proof (Forall_lookup_1 _ _ _ _ Hws Hw) as (Hc & Hit & _).
  pose proof (exited_count_lt _ _ _ Hw Hex) as Hlt.
  pose proof (inv_count _ _ _ _ _ _ HI) as Hcnt.
  rewrite (inv_width _ _ _ _ _ _ HI) in Hlt.
  assert (Hmax : globalIteratorIndex s < INT_MAX) by (unfold taken in Hcnt; lia).
  rewrite (step_running _ _ _ s i w Hw Hex) in Hstep.
  rewrite (incrementIterator_claims _ _ _ _ _ Hc Hmax Hit) in Hstep.
  injection Hstep as <-.
  assert (Hbelow : forall k v, workers s !! k = Some v -> at_pc v <> AtStart ->
                               currentIndex v < globalIteratorIndex s).
  { intros k v Hk Hv. pose proof (Forall_lookup_1 _ _ _ _ Hws Hk) as (_ & _ & Hpc).
    destruct (at_pc v); [now elim Hv | lia | lia]. }
  pose proof (lookup_lt_Some _ _ _ Hw) as Hi_lt.
  intros j k v v' Hj Hk Hv Hv' Heq. cbn [workers] in Hj, Hk.
  destruct (decide (j = i)) as [-> | Hji], (decide (k = i)) as [-> | Hki].
  - reflexivity.
  - rewrite list_lookup_insert_eq in Hj by assumption. injection Hj as <-.
    rewrite list_lookup_insert_ne in Hk by congruence.
    specialize (Hbelow k v' Hk Hv'). cbn [currentIndex] in Heq. lia.
  - rewrite list_lookup_insert_eq in Hk by assumption. injection Hk as <-.
    rewrite list_lookup_insert_ne in Hj by congruence.
    specialize (Hbelow j v Hj Hv). cbn [currentIndex] in Heq. lia.
  - rewrite list_lookup_insert_ne in Hj, Hk by congruence.
    exact (Hd j k v v' Hj Hk Hv Hv' Heq).
Qed.

Lemma run_distinct sched : forall s s' : @system T Tile,
  Inv s -> distinct_indices s ->
  run incr exhausted deref sched s = Some s' ->
  Inv s' /\ distinct_indices s'.
Proof.
  induction sched as [| i sched IH]; intros s s' HI Hd; simpl.
  - intros [= <-]. auto.
  - destruct (step_invariant _ _ _ _ _ _ Henum Hint s i HI) as (s1 & Hs & HI1).
    rewrite Hs. apply IH; [exact HI1 |]. exact (step_distinct s s1 i HI Hd Hs).
Qed.

(** X12. Where the threads end. When all [W >= 1] threads have left their loops,
    [globalIteratorIndex] is [L + W], and the indices on which the threads
    stand are the [W] values [L .. L+W-1], one thread on each; every thread
    has moved its own iterator forward as many times as its index says, so
    each of them has walked the whole enumeration, and all but one have
    incremented an iterator that was already exhausted. *)
Theorem exit_positions sched (s : @system T Tile) :
  (1 <= W)%nat ->
  run incr exhausted deref sched (init start W) = Some s ->
  all_exited s = true ->
  globalIteratorIndex s = Z.of_nat L + Z.of_nat W /\
  map currentIndex (workers s) ≡ₚ map Z.of_nat (seq L W) /\
  Forall (fun w => iter w = advance incr (Z.to_nat (currentIndex w)) start) (workers s).
Proof.
  intros HW Hrun Hall.
  destruct (run_distinct sched _ _ (init_invariant _ _ _ _ _) init_distinct Hrun)
    as [HI Hd].
  pose proof (inv_workers _ _ _ _ _ _ HI) as Hws.
  pose proof (inv_width _ _ _ _ _ _ HI) as Hlen.
  pose proof (inv_count _ _ _ _ _ _ HI) as Hcnt.
  rewrite (all_exited_count s Hall), Hlen in Hcnt.
  assert (Hg : globalIteratorIndex s = Z.of_nat L + Z.of_nat W)
    by (unfold taken in Hcnt; lia).
  assert (Hex : forall k v, workers s !! k = Some v -> at_pc v = Exited).
  { intros k v Hk. unfold all_exited in Hall. rewrite forallb_forall in Hall.
    assert (Hin : In v (workers s))
      by (apply list_elem_of_In, list_elem_of_lookup; eauto).
    specialize (Hall v Hin). unfold is_exited in Hall.
    destruct (at_pc v); [discriminate .. | reflexivity]. }
  split; [exact Hg |]. split.
  - apply submseteq_length_Permutation.
    + apply NoDup_submseteq.
      * apply NoDup_alt. intros j k x Hj Hk.
        rewrite list_lookup_fmap in Hj, Hk.
        destruct (workers s !! j) as [v |] eqn:Hvj; [| discriminate].
        destruct (workers s !! k) as [v' |] eqn:Hvk; [| discriminate].
        cbn in Hj, Hk. injection Hj as Hj. injection Hk as Hk.
        apply (Hd j k v v' Hvj Hvk); [| | congruence].
        -- rewrite (Hex j v Hvj). discriminate.
        -- rewrite (Hex k v' Hvk). discriminate.
      * intros x Hx. apply list_elem_of_fmap in Hx as (v & -> & Hv).
        apply list_elem_of_lookup in Hv as [k Hk].
        pose proof (Forall_lookup_1 _ _ _ _ Hws Hk) as (_ & _ & Hpc).
        rewrite (Hex k v Hk) in Hpc.
        apply list_elem_of_fmap. exists (Z.to_nat (currentIndex v)).
        split; [lia |]. apply elem_of_seq. lia.
    + rewrite !length_map, length_seq. lia.
  - eapply Forall_impl; [exact Hws |]. intros v (_ & Hit & _). exact Hit.
Qed.

End Protocol.

Lemma exit_positions_witness :
  (1 <= 2)%nat /\
  exists s,
    run ScanIterator.incr ScanIterator.exhausted ScanIterator.deref
        [0; 1; 1; 0; 1; 0; 1]%nat (init 0%nat 2) = Some s /\
    all_exited s = true /\
    globalIteratorIndex s = Z.of_nat 5 + Z.of_nat 2 /\
    map currentIndex (workers s) ≡ₚ map Z.of_nat (seq 5 2) /\
    Forall (fun w => iter w = advance ScanIterator.incr (Z.to_nat (currentIndex w)) 0%nat)
           (workers s).
Proof.
  assert (HW : (1 <= 2)%nat) by lia.
  assert (Hint : Z.of_nat 5 + Z.of_nat 2 <= INT_MAX) by (unfold INT_MAX; lia).
  split; [exact HW |]. eexists.
  assert (Hrun : run ScanIterator.incr ScanIterator.exhausted ScanIterator.deref
                     [0; 1; 1; 0; 1; 0; 1]%nat (init 0%nat 2)
                 = Some {| globalIteratorIndex := 7;
                           workers := [ {| iter := 5%nat; currentIndex := 5;
                                           at_pc := Exited |};
                                        {| iter := 5%nat; currentIndex := 6;
                                           at_pc := Exited |} ];
                           claims := [ {| who := 0; index := 0; tile := (0, 0, 0) |};
                                       {| who := 1; index := 1; tile := (0, 1, 0) |};
                                       {| who := 1; index := 2; tile := (0, 0, 1) |};
                                       {| who := 0; index := 3; tile := (0, 1, 1) |};
                                       {| who := 1; index := 4; tile := (1, 0, 0) |} ] |})
    by (vm_compute; reflexivity).
  split; [exact Hrun |]. split; [reflexivity |].
  exact (exit_positions ScanIterator.incr ScanIterator.exhausted ScanIterator.deref
           0%nat 5 2 scan_enumerates Hint _ _ HW Hrun eq_refl).
Defined.

End CoordinatorMore.

(** ** The tool: exit code and file names *)

Module DriverMore.
Import Driver.

Lemma runTiler_value opened build retval :
  runTiler opened build = Value retval ->
  (retval = 0 /\ returns_zero (opened, build)) \/ (retval = 1 /\ opened = false).
Proof.
  unfold runTiler, returns_zero. destruct opened; cbn [negb fst snd].
  - destruct build as [| [what | what | what]]; intros [= <-]; left; eauto.
  - intros [= <-]. now right.
Qed.

Lemma runTiler_zero opened build :
  returns_zero (opened, build) -> runTiler opened build = Value 0.
Proof.
  unfold returns_zero. cbn [fst snd]. intros [-> [-> | [what ->]]]; reflexivity.
Qed.

(** X13. What the exit code tells. [main] returns 0 exactly when every thread
    opened its dataset and its build either completed or threw a
    [CTBException]; and the only other code it returns is 1, the value of a
    thread that could not open its dataset. *)
Theorem main_exit_code (threads : list (bool * build_result)) :
  (main threads = ExitCode 0 <-> Forall returns_zero threads) /\
  (forall code, main threads = ExitCode code -> code = 0 \/ code = 1).
Proof.
  unfold main. induction threads as [| [opened build] threads [IH0 IH1]];
    cbn [map get_all].
  - split; [split; [constructor | reflexivity] | intros code [= <-]; now left].
  - destruct (runTiler opened build) as [retval | e] eqn:Hrun.
    + apply runTiler_value in Hrun as [[-> Hz] | [-> ->]]; cbn [Z.eqb].
      * split; [| exact IH1]. rewrite IH0. split.
        -- intros Hall. now constructor.
        -- intros Hall. now apply Forall_cons in Hall as [_ Hall].
      * split; [split |].
        -- discriminate.
        -- intros Hall. apply Forall_cons in Hall as [[Hopen _] _]. discriminate.
        -- intros code [= <-]. now right.
    + split; [split |]; try discriminate.
      intros Hall. apply Forall_cons in Hall as [Hz _].
      apply runTiler_zero in Hz. congruence.
Qed.

(** *** File names *)

Lemma length_app_string (a b : string) :
  String.length (a +:+ b) = (String.length a + String.length b)%nat.
Proof. induction a as [| c a IH]; simpl; [reflexivity | now rewrite IH]. Qed.

Lemma app_string_inv_tail (a b s : string) : a +:+ s = b +:+ s -> a = b.
Proof.
  revert b. induction a as [| c a IH]; intros [| c' b] E; simpl in E.
  - reflexivity.
  - apply (f_equal String.length) in E.
    rewrite !length_app_string in E. simpl in E. lia.
  - apply (f_equal String.length) in E.
    rewrite !length_app_string in E. simpl in E. lia.
  - injection E as -> E. f_equal. now apply IH.
Qed.

Lemma pretty_N_char_no_dash d : Ascii.eqb (pretty_N_char d) "-"%char = false.
Proof. unfold pretty_N_char. now repeat case_match. Qed.

Lemma pretty_N_go_dash_free (n : N) : forall s,
  dash_free s = true -> dash_free (pretty_N_go n s) = true.
Proof.
  induction (N.lt_wf_0 n) as [n _ IH]; intros s Hs.
  destruct (decide (n = 0)%N) as [-> | Hn]; [now rewrite pretty_N_go_0 |].
  rewrite pretty_N_go_step by lia. apply IH.
  - apply N.div_lt; lia.
  - cbn [dash_free]. now rewrite pretty_N_char_no_dash, Hs.
Qed.

(** A number printed in decimal has no [-] in it. *)
Lemma pretty_N_dash_free (n : N) : dash_free (pretty n) = true.
Proof.
  unfold pretty, pretty_N. case_decide; [reflexivity |].
  now apply pretty_N_go_dash_free.
Qed.

(** Two texts put together with a [-] between them can be told apart again
    when the first has no [-] in it. *)
Lemma split_at_dash (a a' r r' : string) :
  dash_free a = true -> dash_free a' = true ->
  a +:+ "-" +:+ r = a' +:+ "-" +:+ r' -> a = a' /\ r = r'.
Proof.
  revert a'. induction a as [| c a IH]; intros [| c' a'] Ha Ha' E; simpl in E.
  - injection E as E. now subst.
  - injection E as Hc _. subst c'. discriminate Ha'.
  - injection E as Hc _. subst c. discriminate Ha.
  - injection E as Hc E. subst c'.
    cbn [dash_free] in Ha, Ha'.
    apply andb_prop in Ha as [_ Ha]. apply andb_prop in Ha' as [_ Ha'].
    destruct (IH a' Ha Ha' E) as [-> ->]. auto.
Qed.

(** X14. No two tiles share a file. For one directory and one extension (or
    none), coordinates with non-negative fields that get the same file name
    are the same coordinate. *)
Theorem getTileFilename_injective (c c' : Serializer.TileCoordinate) dirname extension :
  0 <= Serializer.zoom c /\ 0 <= Serializer.x c /\ 0 <= Serializer.y c ->
  0 <= Serializer.zoom c' /\ 0 <= Serializer.x c' /\ 0 <= Serializer.y c' ->
  getTileFilename c dirname extension = getTileFilename c' dirname extension ->
  c = c'.
Proof.
  intros (Hz & Hx & Hy) (Hz' & Hx' & Hy') E.
  assert (Hbody :
    pretty (Z.to_N (Serializer.zoom c)) +:+ "-"
      +:+ pretty (Z.to_N (Serializer.x c)) +:+ "-" +:+ pretty (Z.to_N (Serializer.y c))
    = pretty (Z.to_N (Serializer.zoom c')) +:+ "-"
      +:+ pretty (Z.to_N (Serializer.x c')) +:+ "-" +:+ pretty (Z.to_N (Serializer.y c'))).
  { unfold getTileFilename in E. destruct extension as [ext |].
    - apply app_string_inv_tail, app_string_inv_tail in E.
      now apply (inj (String.app dirname)) in E.
    - now apply (inj (String.app dirname)) in E. }
  apply split_at_dash in Hbody as [Ezoom Hbody]; [| apply pretty_N_dash_free ..].
  apply split_at_dash in Hbody as [Ex Ey]; [| apply pretty_N_dash_free ..].
  apply (inj pretty) in Ezoom, Ex, Ey.
  destruct c as [z x y], c' as [z' x' y']. cbn in *.
  f_equal; lia.
Qed.

Lemma getTileFilename_injective_witness :
  getTileFilename {| Serializer.zoom := 12; Serializer.x := 4090; Serializer.y := 7 |}
                  "tiles/" (Some "terrain")
  = "tiles/12-4090-7.terrain" /\
  {| Serializer.zoom := 12; Serializer.x := 4090; Serializer.y := 7 |}
  = {| Serializer.zoom := 12; Serializer.x := 4090; Serializer.y := 7 |}.
Proof.
  split; [vm_compute; reflexivity |].
  apply (getTileFilename_injective _ _ "tiles/" (Some "terrain")); cbn; try lia.
  reflexivity.
Defined.

End DriverMore.
